(** * London Output Area surface analysis: the priority overlay of
    [web_app_deploy.py], embedded in Rocq.

    The script resolves a postcode to an Output Area, clips three coverage
    layers (buildings, car parks, greenspace) to the area's boundary,
    assigns every piece of surface to one class by a fixed priority
    (buildings > car park > greenspace > opportunity) and reports the
    area and the percentage of each class.

    The geometry kernel (shapely / geopandas) is not part of the
    repository.  It is modelled here by rasters: a geometry is a finite
    set of unit cells of the metric grid (EPSG:3857), the set operations
    of the kernel are the set operations on cells, and the area of a
    geometry is its number of cells.  Numbers are exact rationals,
    extended by the two infinities and NaN that numpy's float division
    produces for a zero divisor; where the rounding of the script's own
    arithmetic matters, the binary64 results are the exact ones rounded
    to nearest ([round_double], [pct_double]). *)

From Stdlib Require Import QArith Qabs Qfield Qround Qpower Lqa.
From stdpp Require Import gmap strings list sets fin_sets.
From Stdlib Require Import Ascii.

Local Open Scope string_scope.

(* [set_solver] clears hypotheses it has already consumed. *)
#[local] Set Warnings "-clear-no-such-hyp".

(** ** Geometry kernel *)

Module Kernel.

(** One square metre of the planar grid, named by its lower-left corner. *)
Definition cell : Type := Z * Z.

Abbreviation Geometry := (gset cell).

(** [GeometryCollection()]: the empty geometry. *)
Definition GeometryCollection : Geometry := ∅.

(** [geom.is_empty] *)
Definition is_empty (g : Geometry) : bool := bool_decide (g = ∅).

(** [geom.area] *)
Definition area (g : Geometry) : Q := inject_Z (Z.of_nat (size g)).

(** [a.difference(b)] *)
Definition difference (a b : Geometry) : Geometry := a ∖ b.

(** [a.intersection(b)] *)
Definition intersection (a b : Geometry) : Geometry := a ∩ b.

(** [shapely.ops.unary_union(geoms)] *)
Definition unary_union (geoms : list Geometry) : Geometry := ⋃ geoms.

(** The axis-parallel rectangle of cells [x0 <= x < x0 + w],
    [y0 <= y < y0 + h]; used to write concrete inputs. *)
Definition box (x0 y0 : Z) (w h : nat) : Geometry :=
  list_to_set
    (x ← seq 0 w; y ← seq 0 h; [((x0 + Z.of_nat x)%Z, (y0 + Z.of_nat y)%Z)]).

End Kernel.
Export Kernel.

(** ** Frames

    A GeoDataFrame is the list of its rows.  A layer row is its geometry
    (the attribute columns are never read); a row of the Output Area
    table carries its [OA21CD] code, a row of the postcode table its
    [pcds] and [oa21] columns. *)

Record oa_row := { OA21CD : string; oa_geometry : Geometry }.
Record postcode_row := { pcds : string; oa21 : string }.

(** [df.empty]: the frame has no rows. *)
Definition frame_empty {A} (df : list A) : bool :=
  match df with [] => true | _ :: _ => false end.

(** [series.difference(other)], row by row. *)
Definition series_difference (series : list Geometry) (other : Geometry)
  : list Geometry :=
  (λ g, difference g other) <$> series.

(** [gpd.overlay(df1, df2, how="intersection")]: one row for every pair
    of a row of [df1] and a row of [df2] that intersect, holding the
    intersection. *)
Definition overlay_intersection (df1 df2 : list Geometry) : list Geometry :=
  g1 ← df1; g2 ← df2;
  if is_empty (intersection g1 g2) then [] else [intersection g1 g2].

(** ** Numbers *)

Inductive number :=
| Finite (q : Q)
| PosInf
| NegInf
| NaN.

(** [x / y] where [y] is a numpy float: a zero divisor gives NaN or an
    infinity (with a warning), never an exception. *)
Definition true_div (x y : Q) : number :=
  if Qeq_bool y 0 then
    if Qeq_bool x 0 then NaN
    else if Qle_bool 0 x then PosInf else NegInf
  else Finite (x / y).

(** [n * k] for a finite factor [k]. *)
Definition num_mul (n : number) (k : Q) : number :=
  match n with
  | Finite q => Finite (q * k)
  | NaN => NaN
  | PosInf =>
      if Qeq_bool k 0 then NaN else if Qle_bool 0 k then PosInf else NegInf
  | NegInf =>
      if Qeq_bool k 0 then NaN else if Qle_bool 0 k then NegInf else PosInf
  end.

Definition is_finite (n : number) : bool :=
  match n with Finite _ => true | _ => false end.

(** ** The pipeline *)

(** STEP 3: clip the three layers to the rows of the boundary frame. *)
Record ClippedLayers := {
  buildings : list Geometry;
  carpark : list Geometry;
  greenspace : list Geometry
}.

Definition clip_layers (oa_boundary : list Geometry)
    (buildings_layer carpark_layer greenspace_layer : list Geometry)
  : ClippedLayers :=
  {| buildings := overlay_intersection buildings_layer oa_boundary;
     carpark := overlay_intersection carpark_layer oa_boundary;
     greenspace := overlay_intersection greenspace_layer oa_boundary |}.

(** STEP 4 and STEP 5: the priority rules and the opportunity surface.
    [boundary0] is [oa_boundary.geometry.iloc[0]]. *)
Record ClassUnions := {
  building_union : Geometry;
  carpark_union : Geometry;
  greenspace_union : Geometry;
  opportunity_geom : Geometry
}.

Definition apply_priority_rules (boundary0 : Geometry) (c : ClippedLayers)
  : ClassUnions :=
  let building_union :=
    if negb (frame_empty (buildings c)) then unary_union (buildings c)
    else GeometryCollection in
  let carpark := series_difference (carpark c) building_union in
  let carpark_union :=
    if negb (frame_empty carpark) then unary_union carpark
    else GeometryCollection in
  let combined_union := unary_union [building_union; carpark_union] in
  let greenspace := series_difference (greenspace c) combined_union in
  let greenspace_union :=
    if negb (frame_empty greenspace) then unary_union greenspace
    else GeometryCollection in
  let classified_union :=
    unary_union [building_union; carpark_union; greenspace_union] in
  let opportunity_geom := difference boundary0 classified_union in
  {| building_union := building_union;
     carpark_union := carpark_union;
     greenspace_union := greenspace_union;
     opportunity_geom := opportunity_geom |}.

(** STEP 6: areas and percentages. *)
Record AreaReport := {
  total_area : Q;
  building_area : Q;
  carpark_area : Q;
  greenspace_area : Q;
  opportunity_area : Q;
  building_pct : number;
  carpark_pct : number;
  greenspace_pct : number;
  opportunity_pct : number
}.

(** [geom.area if not geom.is_empty else 0] *)
Definition area_or_zero (geom : Geometry) : Q :=
  if negb (is_empty geom) then area geom else 0%Q.

Definition area_calculations (boundary0 : Geometry) (u : ClassUnions)
  : AreaReport :=
  let total_area := area boundary0 in
  let building_area := area_or_zero (building_union u) in
  let carpark_area := area_or_zero (carpark_union u) in
  let greenspace_area := area_or_zero (greenspace_union u) in
  let opportunity_area := area_or_zero (opportunity_geom u) in
  {| total_area := total_area;
     building_area := building_area;
     carpark_area := carpark_area;
     greenspace_area := greenspace_area;
     opportunity_area := opportunity_area;
     building_pct := num_mul (true_div building_area total_area) 100;
     carpark_pct := num_mul (true_div carpark_area total_area) 100;
     greenspace_pct := num_mul (true_div greenspace_area total_area) 100;
     opportunity_pct := num_mul (true_div opportunity_area total_area) 100 |}.

(** The run from STEP 1 to STEP 6.  The layers and the Output Area table
    are the ones after the reprojection to the metric CRS, the postcode
    and the [pcds] column the ones after upper-casing and removal of
    spaces.  [st.error(msg); st.stop()] ends the run with [Stopped msg]. *)
Inductive outcome :=
| Stopped (msg : string)
| Reported (u : ClassUnions) (r : AreaReport).

(** STEP 2 onwards, for the rows selected for the matched code. *)
Definition analyse (oa_boundary : list Geometry)
    (buildings_layer carpark_layer greenspace_layer : list Geometry)
  : outcome :=
  match oa_boundary with
  | [] => Stopped "Output Area geometry not found."
  | boundary0 :: _ =>
      let c := clip_layers oa_boundary
                 buildings_layer carpark_layer greenspace_layer in
      let u := apply_priority_rules boundary0 c in
      Reported u (area_calculations boundary0 u)
  end.

Definition main (postcode_input : string)
    (postcode_lookup : list postcode_row) (oa_layer : list oa_row)
    (buildings_layer carpark_layer greenspace_layer : list Geometry)
  : outcome :=
  match filter (λ r, pcds r = postcode_input) postcode_lookup with
  | [] => Stopped "Postcode not found."
  | match0 :: _ =>
      let oa_code := oa21 match0 in
      let oa_boundary := filter (λ r, OA21CD r = oa_code) oa_layer in
      analyse (oa_geometry <$> oa_boundary)
        buildings_layer carpark_layer greenspace_layer
  end.

(** STEP 8: the display geometries.  [to_crs_4326] is the coordinate
    transform from the metric CRS to WGS84. *)
Section Display.

Variable to_crs_4326 : Geometry → Geometry.

Definition to_wgs84 (geom : Geometry) : option Geometry :=
  if is_empty geom then None else Some (to_crs_4326 geom).

Record DisplayLayers := {
  building_display : option Geometry;
  carpark_display : option Geometry;
  greenspace_display : option Geometry;
  opportunity_display : option Geometry
}.

Definition prepare_map_display (u : ClassUnions) : DisplayLayers :=
  {| building_display := to_wgs84 (building_union u);
     carpark_display := to_wgs84 (carpark_union u);
     greenspace_display := to_wgs84 (greenspace_union u);
     opportunity_display := to_wgs84 (opportunity_geom u) |}.

(** The truth value of a display geometry in [if x_display:]: [None] is
    false, a geometry is true when it is not empty. *)
Definition truthy (x_display : option Geometry) : bool :=
  match x_display with
  | None => false
  | Some geom => negb (is_empty geom)
  end.

(** [if x_display: layers.append(...)], for the four classes in turn:
    the class geometries that are drawn. *)
Definition drawn_layers (d : DisplayLayers) : list (option Geometry) :=
  filter (λ x, truthy x = true)
    [building_display d; carpark_display d;
     greenspace_display d; opportunity_display d].

End Display.

(** ** The classifier as the specification words it

    Section 4.2 of the specification: each raw layer is merged first and
    one difference is taken per class. *)

Definition classify (boundary : Geometry) (c : ClippedLayers) : ClassUnions :=
  let building_union := unary_union (buildings c) in
  let carpark_raw := unary_union (carpark c) in
  let carpark_union := difference carpark_raw building_union in
  let occupied := unary_union [building_union; carpark_union] in
  let greenspace_raw := unary_union (greenspace c) in
  let greenspace_union := difference greenspace_raw occupied in
  let classified :=
    unary_union [building_union; carpark_union; greenspace_union] in
  let opportunity_geom := difference boundary classified in
  {| building_union := building_union;
     carpark_union := carpark_union;
     greenspace_union := greenspace_union;
     opportunity_geom := opportunity_geom |}.

(** ** The run in closed form *)

(** The part of a raw layer that the clip keeps. *)
Definition clipped (layer oa_boundary : list Geometry) : Geometry :=
  unary_union layer ∩ unary_union oa_boundary.

(** What [analyse] reports, in terms of the clipped layers. *)
Definition classes_of (first : Geometry) (rest bl cl gl : list Geometry)
  : ClassUnions :=
  let B := clipped bl (first :: rest) in
  let Cr := clipped cl (first :: rest) in
  let Gr := clipped gl (first :: rest) in
  {| building_union := B;
     carpark_union := Cr ∖ B;
     greenspace_union := Gr ∖ (B ∪ Cr);
     opportunity_geom := first ∖ (B ∪ Cr ∪ Gr) |}.

(** ** Tolerances *)

Definition rel_tol : Q := 1 # 1000000.

(** [x] equals [y] up to the relative tolerance. *)
Definition close_to (x y : Q) : Prop :=
  (Qabs (x - y) <= rel_tol * Qabs y)%Q.

(** The sum of the four reported areas. *)
Definition class_area_sum (r : AreaReport) : Q :=
  (building_area r + carpark_area r + greenspace_area r
   + opportunity_area r)%Q.

(** ** The postcode

    The text of the input box and the [pcds] column of the postcode
    table go through the same steps: [upper()], [strip()],
    [replace(" ", "")].  Postcodes are ASCII; a string is the list of
    its characters. *)

Module Postcode.

Abbreviation chars := String.list_ascii_of_string.
Abbreviation of_chars := String.string_of_list_ascii.

(** The ASCII characters for which [str.isspace] holds: tab, line feed,
    vertical tab, form feed, carriage return, the four separators
    0x1c to 0x1f and the space. *)
Definition is_space (c : ascii) : bool :=
  let n := nat_of_ascii c in
  ((9 <=? n) && (n <=? 13) || (28 <=? n) && (n <=? 32))%nat.

Definition is_lower (c : ascii) : bool :=
  let n := nat_of_ascii c in ((97 <=? n) && (n <=? 122))%nat.

Definition upper_char (c : ascii) : ascii :=
  if is_lower c then ascii_of_nat (nat_of_ascii c - 32) else c.

(** The leading whitespace removed. *)
Fixpoint lstrip_chars (s : list ascii) : list ascii :=
  match s with
  | [] => []
  | c :: s' => if is_space c then lstrip_chars s' else s
  end.

(** The trailing whitespace removed. *)
Definition rstrip_chars (s : list ascii) : list ascii :=
  reverse (lstrip_chars (reverse s)).

Definition strip_chars (s : list ascii) : list ascii :=
  rstrip_chars (lstrip_chars s).

Definition remove_space_chars (s : list ascii) : list ascii :=
  filter (λ c, c ≠ " "%char) s.

(** [s.upper()] *)
Definition upper (s : string) : string :=
  String.string_of_list_ascii (upper_char <$> String.list_ascii_of_string s).

(** [s.strip()] *)
Definition strip (s : string) : string :=
  String.string_of_list_ascii (strip_chars (String.list_ascii_of_string s)).

(** [s.replace(" ", "")] *)
Definition remove_spaces (s : string) : string :=
  String.string_of_list_ascii (remove_space_chars (String.list_ascii_of_string s)).

(** [s.upper().strip()] followed by [.replace(" ", "")]. *)
Definition normalise (s : string) : string :=
  remove_spaces (strip (upper s)).

(** The string holds whitespace only (or nothing). *)
Definition blank (s : string) : Prop :=
  Forall (λ c, is_space c = true) (String.list_ascii_of_string s).

(** The character is one of the 128 ASCII characters, the string holds
    no other: the texts on which [upper] and [strip] above are those of
    Python. *)
Definition is_ascii (c : ascii) : bool := (nat_of_ascii c <? 128)%nat.

Definition ascii_text (s : string) : Prop :=
  Forall (λ c, is_ascii c = true) (String.list_ascii_of_string s).

End Postcode.
Export Postcode.

(** A row of the postcode table as [pd.read_csv] returns it: the [pcds]
    cell is a string or a missing value ([None]); the [oa21] cell is
    taken to be a string. *)
Record csv_row := { csv_pcds : option string; csv_oa21 : string }.

(** [load_postcode_lookup]: the table with its [pcds] column
    normalised.  The [.str] methods leave a missing value missing, and a
    missing value equals no postcode, so that its row is never selected
    by the comparison with [postcode_input]; the row is left out. *)
Definition load_postcode_lookup (df : list csv_row) : list postcode_row :=
  omap (λ r, p ← csv_pcds r;
             Some {| pcds := normalise p; oa21 := csv_oa21 r |}) df.

(** The script from the input box on.  [text_input] is what the user
    typed and [csv] the postcode table as read; under an empty
    [postcode_input] the body of [if postcode_input:] is skipped and the
    page shows neither a result nor an error ([None]). *)
Definition app (text_input : string) (csv : list csv_row)
    (oa_layer : list oa_row)
    (buildings_layer carpark_layer greenspace_layer : list Geometry)
  : option outcome :=
  let postcode_input := normalise text_input in
  if bool_decide (postcode_input = "") then None
  else
    Some (main postcode_input (load_postcode_lookup csv) oa_layer
            buildings_layer carpark_layer greenspace_layer).

(** ** The map layers

    STEP 8, the list [layers]: a filled layer for every class whose
    display geometry is true, in the order buildings, car park,
    greenspace, opportunity, and after them the outline of the boundary
    frame. *)

Inductive Layer :=
| FilledLayer (data : Geometry) (get_fill_color : list Z)
| OutlineLayer (data : list Geometry) (get_line_color : list Z)
    (line_width_min_pixels : Z).

(** [if x_display: layers.append(pdk.Layer(..., filled=True, ...))] *)
Definition class_layer (x_display : option Geometry)
    (get_fill_color : list Z) : list Layer :=
  match x_display with
  | Some geom =>
      if truthy x_display then [FilledLayer geom get_fill_color] else []
  | None => []
  end.

Definition map_layers (d : DisplayLayers) (oa_display : list Geometry)
  : list Layer :=
  class_layer (building_display d) [200; 0; 0; 180]%Z
  ++ class_layer (carpark_display d) [150; 0; 200; 180]%Z
  ++ class_layer (greenspace_display d) [0; 180; 0; 180]%Z
  ++ class_layer (opportunity_display d) [0; 100; 255; 160]%Z
  ++ [OutlineLayer oa_display [255; 215; 0]%Z 3].

(** The layers of a run: the classes and the boundary frame, both
    reprojected by [to_crs_4326]. *)
Definition run_layers (to_crs_4326 : Geometry → Geometry)
    (oa_boundary : list Geometry) (u : ClassUnions) : list Layer :=
  map_layers (prepare_map_display to_crs_4326 u)
    (to_crs_4326 <$> oa_boundary).

Definition is_filled (l : Layer) : bool :=
  match l with FilledLayer _ _ => true | OutlineLayer _ _ _ => false end.

(** ** Double precision

    The arithmetic of the script itself, the quotients and products of
    lines 166 to 169, is done on IEEE 754 binary64 numbers.  The result
    of an operation is the exact result rounded to the nearest binary64
    number, ties to the one with an even significand: 53 significant
    bits, the lowest bit no lower than 2^-1074, and an infinity from
    2^1024 on.  A zero result is [Finite 0], whatever its sign. *)

Module Double.

(** The nearest integer, ties to the even one. *)
Definition round_half_even (q : Q) : Z :=
  let f := Qfloor q in
  match Qcompare (q - inject_Z f) (1 # 2) with
  | Lt => f
  | Gt => (f + 1)%Z
  | Eq => if Z.even f then f else (f + 1)%Z
  end.

(** For [0 < q], the exponent [e] with [2 ^ e <= q < 2 ^ (e + 1)]. *)
Definition binade (q : Q) : Z :=
  let e := (Z.log2 (Qnum q) - Z.log2 (Zpos (Qden q)))%Z in
  if Qle_bool (2 ^ e) q then e else (e - 1)%Z.

Definition round_double (q : Q) : number :=
  if Qeq_bool q 0 then Finite 0
  else
    let e := Z.max (binade (Qabs q) - 52) (-1074) in
    let r := (inject_Z (round_half_even (q / 2 ^ e)) * 2 ^ e)%Q in
    if Qle_bool (2 ^ 1024) (Qabs r) then
      if Qle_bool 0 q then PosInf else NegInf
    else Finite r.



End Double.
Export Double.

Definition round_number (n : number) : number :=
  match n with
  | Finite q => round_double q
  | PosInf | NegInf | NaN => n
  end.

(** [x / y] on binary64 numbers. *)
Definition double_div (x y : Q) : number := round_number (true_div x y).

(** [n * k] on binary64 numbers. *)
Definition double_mul (n : number) (k : Q) : number :=
  round_number (num_mul n k).

(** [(x_area / total_area) * 100], lines 166 to 169, as computed. *)
Definition pct_double (x_area total_area : Q) : number :=
  double_mul (double_div x_area total_area) 100.

(** ** Kernel facts *)

Section KernelFacts.

Implicit Types (g a b : Geometry) (gs : list Geometry).

Lemma is_empty_true g : is_empty g = true ↔ g = ∅.
Proof. unfold is_empty. apply bool_decide_eq_true. Qed.

Lemma is_empty_false g : is_empty g = false ↔ g ≠ ∅.
Proof. unfold is_empty. apply bool_decide_eq_false. Qed.

Lemma elem_of_unary_union x gs : x ∈ unary_union gs ↔ ∃ g, g ∈ gs ∧ x ∈ g.
Proof. unfold unary_union. apply elem_of_union_list. Qed.

Lemma area_empty : area ∅ = 0%Q.
Proof. reflexivity. Qed.

Lemma area_nonneg g : (0 <= area g)%Q.
Proof.
  unfold area, Qle. simpl. lia.
Qed.

Lemma area_zero_empty g : (area g == 0)%Q ↔ g = ∅.
Proof.
  unfold area, Qeq. simpl. rewrite <- leibniz_equiv_iff, <- size_empty_iff. lia.
Qed.

Lemma area_pos_nonempty g : (0 < area g)%Q ↔ g ≠ ∅.
Proof.
  rewrite <- area_zero_empty. pose proof (area_nonneg g) as Hg.
  split.
  - intros Hlt Heq. rewrite Heq in Hlt. by apply Qlt_irrefl in Hlt.
  - intros Hne. apply Qle_lt_or_eq in Hg as [Hlt | Heq]; [done |].
    exfalso. apply Hne. by symmetry.
Qed.

Lemma area_union_disjoint a b :
  a ## b → (area (a ∪ b) == area a + area b)%Q.
Proof.
  intros Hd. unfold area. rewrite size_union by done.
  rewrite Nat2Z.inj_add, inject_Z_plus. reflexivity.
Qed.

Lemma area_or_zero_area g : area_or_zero g = area g.
Proof.
  unfold area_or_zero. destruct (is_empty g) eqn:He; simpl; [| done].
  apply is_empty_true in He. by subst g.
Qed.

(** The [df.empty] guard around [unary_union] changes nothing: the union
    of no rows is the empty geometry. *)
Lemma guarded_union gs :
  (if negb (frame_empty gs) then unary_union gs else GeometryCollection)
  = unary_union gs.
Proof. by destruct gs. Qed.

Lemma union_series_difference gs b :
  unary_union (series_difference gs b) = unary_union gs ∖ b.
Proof.
  apply set_eq. intros x.
  rewrite elem_of_difference, !elem_of_unary_union.
  unfold series_difference, difference. setoid_rewrite list_elem_of_fmap.
  split.
  - intros (g' & (g & Hg' & Hg) & Hx). subst g'.
    apply elem_of_difference in Hx as [Hx Hb]. split; [by exists g | done].
  - intros [(g & Hg & Hx) Hb]. exists (g ∖ b).
    split; [by exists g | by apply elem_of_difference].
Qed.

Lemma elem_of_overlay_intersection g df1 df2 :
  g ∈ overlay_intersection df1 df2
  ↔ ∃ g1 g2, g1 ∈ df1 ∧ g2 ∈ df2 ∧ g = g1 ∩ g2 ∧ g ≠ ∅.
Proof.
  unfold overlay_intersection, intersection. rewrite list_elem_of_bind.
  split.
  - intros (g1 & Hin & H1). apply list_elem_of_bind in Hin as (g2 & Hin & H2).
    destruct (is_empty (g1 ∩ g2)) eqn:He; [by apply elem_of_nil in Hin |].
    apply list_elem_of_singleton in Hin. apply is_empty_false in He.
    exists g1, g2. by subst g.
  - intros (g1 & g2 & H1 & H2 & -> & Hne). exists g1. split; [| done].
    apply list_elem_of_bind. exists g2. split; [| done].
    apply is_empty_false in Hne. rewrite Hne. by apply list_elem_of_singleton.
Qed.

(** Clipping a layer to a frame keeps exactly the part of the layer that
    lies in some row of the frame. *)
Lemma union_overlay_intersection df1 df2 :
  unary_union (overlay_intersection df1 df2)
  = unary_union df1 ∩ unary_union df2.
Proof.
  apply set_eq. intros x.
  rewrite elem_of_intersection, !elem_of_unary_union. split.
  - intros (g & Hg & Hx).
    apply elem_of_overlay_intersection in Hg as (g1 & g2 & H1 & H2 & -> & _).
    apply elem_of_intersection in Hx as [Hx1 Hx2].
    split; [by exists g1 | by exists g2].
  - intros [(g1 & H1 & Hx1) (g2 & H2 & Hx2)].
    exists (g1 ∩ g2). split; [| set_solver].
    apply elem_of_overlay_intersection. exists g1, g2. set_solver.
Qed.

Lemma unary_union_pair a b : unary_union [a; b] = a ∪ b.
Proof. unfold unary_union. simpl. by rewrite (right_id_L ∅ (∪)). Qed.

Lemma unary_union_triple a b g : unary_union [a; b; g] = a ∪ b ∪ g.
Proof.
  unfold unary_union. simpl.
  by rewrite (right_id_L ∅ (∪)), (assoc_L (∪)).
Qed.

End KernelFacts.

(** ** The priority rules *)

Section PriorityRules.

Implicit Types (b B Cr Gr : Geometry) (c : ClippedLayers).

(** The code subtracts row by row and then merges; the result is the
    classifier of the specification. *)
Lemma apply_priority_rules_classify b c :
  apply_priority_rules b c = classify b c.
Proof.
  unfold apply_priority_rules, classify. cbv zeta.
  rewrite !guarded_union, !union_series_difference. reflexivity.
Qed.

Lemma analyse_cons (first : Geometry) (rest bl cl gl : list Geometry) :
  analyse (first :: rest) bl cl gl
  = Reported (classify first (clip_layers (first :: rest) bl cl gl))
      (area_calculations first
         (classify first (clip_layers (first :: rest) bl cl gl))).
Proof.
  unfold analyse. cbv zeta. by rewrite apply_priority_rules_classify.
Qed.

(** The four classes of [classify] in terms of the merged layers. *)
Lemma classify_unions b c :
  let B := unary_union (buildings c) in
  let Cr := unary_union (carpark c) in
  let Gr := unary_union (greenspace c) in
  classify b c
  = {| building_union := B;
       carpark_union := Cr ∖ B;
       greenspace_union := Gr ∖ (B ∪ Cr);
       opportunity_geom := b ∖ (B ∪ Cr ∪ Gr) |}.
Proof.
  intros B Cr Gr. unfold classify, difference. cbv zeta. fold B Cr Gr.
  rewrite unary_union_pair, unary_union_triple.
  assert (B ∪ Cr ∖ B = B ∪ Cr) as Hocc.
  { apply set_eq. intros x. rewrite !elem_of_union, elem_of_difference.
    destruct (decide (x ∈ B)); tauto. }
  assert (B ∪ Cr ∪ Gr ∖ (B ∪ Cr) = B ∪ Cr ∪ Gr) as Hcls.
  { apply set_eq. intros x.
    rewrite !elem_of_union, elem_of_difference, elem_of_union.
    destruct (decide (x ∈ B)), (decide (x ∈ Cr)); tauto. }
  by rewrite Hocc, Hcls.
Qed.

(** The classes are pairwise disjoint. *)
Lemma classes_disjoint b B Cr Gr :
  B ## Cr ∖ B ∧ B ## Gr ∖ (B ∪ Cr) ∧ B ## b ∖ (B ∪ Cr ∪ Gr)
  ∧ Cr ∖ B ## Gr ∖ (B ∪ Cr) ∧ Cr ∖ B ## b ∖ (B ∪ Cr ∪ Gr)
  ∧ Gr ∖ (B ∪ Cr) ## b ∖ (B ∪ Cr ∪ Gr).
Proof. repeat split; set_solver. Qed.

(** The areas of the four classes add up to the area of everything that
    was classified together with the first boundary row. *)
Lemma classes_area b B Cr Gr :
  (area B + area (Cr ∖ B) + area (Gr ∖ (B ∪ Cr)) + area (b ∖ (B ∪ Cr ∪ Gr))
   == area (b ∪ (B ∪ Cr ∪ Gr)))%Q.
Proof.
  assert (b ∪ (B ∪ Cr ∪ Gr)
          = ((B ∪ Cr ∖ B) ∪ Gr ∖ (B ∪ Cr)) ∪ b ∖ (B ∪ Cr ∪ Gr)) as ->.
  { apply set_eq. intros x. rewrite !elem_of_union, !elem_of_difference,
      !elem_of_union.
    destruct (decide (x ∈ B)), (decide (x ∈ Cr)), (decide (x ∈ Gr)); tauto. }
  rewrite !area_union_disjoint by set_solver. reflexivity.
Qed.

End PriorityRules.

(** ** Facts about the run *)

Section Run.

Implicit Types (b first : Geometry) (rest bl cl gl : list Geometry).

Lemma analyse_classes first rest bl cl gl :
  analyse (first :: rest) bl cl gl
  = Reported (classes_of first rest bl cl gl)
      (area_calculations first (classes_of first rest bl cl gl)).
Proof.
  rewrite analyse_cons, classify_unions. unfold clip_layers. simpl.
  by rewrite !union_overlay_intersection.
Qed.

Lemma clipped_single layer b : clipped layer [b] ⊆ b.
Proof.
  unfold clipped, unary_union. simpl. rewrite (right_id_L ∅ (∪)).
  apply intersection_subseteq_r.
Qed.

Lemma class_area_sum_classes first u :
  (class_area_sum (area_calculations first u)
   == area (building_union u) + area (carpark_union u)
      + area (greenspace_union u) + area (opportunity_geom u))%Q.
Proof.
  unfold class_area_sum, area_calculations. simpl.
  rewrite !area_or_zero_area. reflexivity.
Qed.

(** Over a single boundary row the class areas add up to its area. *)
Lemma single_row_area_sum b bl cl gl :
  (area (building_union (classes_of b [] bl cl gl))
   + area (carpark_union (classes_of b [] bl cl gl))
   + area (greenspace_union (classes_of b [] bl cl gl))
   + area (opportunity_geom (classes_of b [] bl cl gl))
   == area b)%Q.
Proof.
  unfold classes_of. simpl. rewrite classes_area.
  pose proof (clipped_single bl b). pose proof (clipped_single cl b).
  pose proof (clipped_single gl b).
  replace (b ∪ (clipped bl [b] ∪ clipped cl [b] ∪ clipped gl [b])) with b
    by set_solver.
  reflexivity.
Qed.

Lemma single_row_report_sum b bl cl gl :
  (class_area_sum (area_calculations b (classes_of b [] bl cl gl))
   == area b)%Q.
Proof. rewrite class_area_sum_classes. apply single_row_area_sum. Qed.

Lemma close_to_eq x y : (x == y)%Q → close_to x y.
Proof.
  intros Heq. unfold close_to. rewrite Heq.
  assert (y - y == 0)%Q as -> by ring. simpl.
  apply Qmult_le_0_compat; [by unfold rel_tol | apply Qabs_nonneg].
Qed.

(** A percentage over a non-zero total is finite. *)
Lemma pct_finite a t :
  ¬ (t == 0)%Q → num_mul (true_div a t) 100 = Finite (a / t * 100).
Proof.
  intros Ht. unfold true_div.
  destruct (Qeq_bool t 0) eqn:He; [| done].
  by apply Qeq_bool_iff in He.
Qed.


End Run.

(** ** Properties of a run *)

(** C4 (refinement).  Subtracting the buildings from every car park row
    and merging afterwards, as the code does, gives the car park class of
    the specification's classifier, which merges the rows first and takes
    one difference; the same holds for the greenspace class, for every
    boundary and all clipped layers. *)
Theorem refinement_carpark_greenspace (boundary : Geometry)
    (c : ClippedLayers) :
  let u := apply_priority_rules boundary c in
  carpark_union u = carpark_union (classify boundary c)
  ∧ greenspace_union u = greenspace_union (classify boundary c)
  ∧ carpark_union u
    = difference (unary_union (carpark c)) (building_union u)
  ∧ greenspace_union u
    = difference (unary_union (greenspace c))
        (unary_union [building_union u; carpark_union u])
  ∧ u = classify boundary c.
Proof.
  intros u. subst u. rewrite apply_priority_rules_classify.
  repeat split; reflexivity.
Qed.

(** C1 (area conservation).  For a boundary polygon [b] and any three
    layers the run produces a report whose four class areas are the areas
    of the four class geometries and add up to the area of [b], exactly
    and hence within the relative tolerance. *)
Theorem area_conservation (b : Geometry) (bl cl gl : list Geometry) :
  ∃ u r,
    analyse [b] bl cl gl = Reported u r
    ∧ total_area r = area b
    ∧ (area (building_union u) + area (carpark_union u)
       + area (greenspace_union u) + area (opportunity_geom u)
       == area b)%Q
    ∧ (class_area_sum r == total_area r)%Q
    ∧ close_to (class_area_sum r) (total_area r).
Proof.
  eexists _, _. split; [apply analyse_classes |].
  pose proof (single_row_area_sum b bl cl gl) as Hsum.
  pose proof (single_row_report_sum b bl cl gl) as Hrep.
  split; [reflexivity |]. split; [exact Hsum |].
  split; [exact Hrep |]. apply close_to_eq. exact Hrep.
Qed.

(** C2 (pairwise disjointness).  In every run, over a boundary frame of
    any number of rows, any two of the four class geometries have an
    intersection of area 0. *)
Theorem pairwise_disjoint (first : Geometry) (rest bl cl gl : list Geometry) :
  ∃ u r,
    analyse (first :: rest) bl cl gl = Reported u r
    ∧ (area (intersection (building_union u) (carpark_union u)) == 0)%Q
    ∧ (area (intersection (building_union u) (greenspace_union u)) == 0)%Q
    ∧ (area (intersection (building_union u) (opportunity_geom u)) == 0)%Q
    ∧ (area (intersection (carpark_union u) (greenspace_union u)) == 0)%Q
    ∧ (area (intersection (carpark_union u) (opportunity_geom u)) == 0)%Q
    ∧ (area (intersection (greenspace_union u) (opportunity_geom u)) == 0)%Q.
Proof.
  eexists _, _. split; [apply analyse_classes |].
  unfold classes_of, intersection. simpl.
  destruct (classes_disjoint first (clipped bl (first :: rest))
              (clipped cl (first :: rest)) (clipped gl (first :: rest)))
    as (H1 & H2 & H3 & H4 & H5 & H6).
  rewrite !area_zero_empty.
  repeat split; by apply disjoint_intersection_L.
Qed.

Lemma pct_not_finite (a t : Q) :
  (t == 0)%Q → is_finite (num_mul (true_div a t) 100) = false.
Proof.
  intros Ht. unfold true_div.
  apply Qeq_bool_iff in Ht. rewrite Ht.
  destruct (Qeq_bool a 0); [done |]. by destruct (Qle_bool 0 a).
Qed.

Lemma pct_is_finite (a t : Q) :
  is_finite (num_mul (true_div a t) 100) = true ↔ (0 < t ∨ t < 0)%Q.
Proof.
  split.
  - intros Hfin. destruct (Q_dec t 0) as [[Hlt | Hgt] | Heq]; [by right | by left |].
    by rewrite (pct_not_finite a t Heq) in Hfin.
  - intros Hne. rewrite pct_finite; [done |].
    intros Heq. rewrite Heq in Hne. destruct Hne as [H | H]; by apply Qlt_irrefl in H.
Qed.

Lemma classes_of_empty_boundary (bl cl gl : list Geometry) :
  classes_of GeometryCollection [] bl cl gl
  = {| building_union := GeometryCollection;
       carpark_union := GeometryCollection;
       greenspace_union := GeometryCollection;
       opportunity_geom := GeometryCollection |}.
Proof.
  unfold classes_of, GeometryCollection.
  pose proof (clipped_single bl ∅). pose proof (clipped_single cl ∅).
  pose proof (clipped_single gl ∅).
  f_equal; set_solver.
Qed.

(** C3, as the code has it.  The run has no check of the boundary's
    area: over any boundary frame with at least one row it produces a
    report.  The reported areas are the rational areas of the class
    geometries, 0 for an empty one, so never NaN.  The percentages are
    finite exactly when the area of the first boundary row is positive;
    over the empty boundary all four are NaN. *)
Theorem zero_area_boundary_unchecked (first : Geometry)
    (rest bl cl gl : list Geometry) :
  (∃ u r,
     analyse (first :: rest) bl cl gl = Reported u r
     ∧ building_area r = area (building_union u)
     ∧ carpark_area r = area (carpark_union u)
     ∧ greenspace_area r = area (greenspace_union u)
     ∧ opportunity_area r = area (opportunity_geom u)
     ∧ ((0 < area first)%Q
        ↔ is_finite (building_pct r) = true
          ∧ is_finite (carpark_pct r) = true
          ∧ is_finite (greenspace_pct r) = true
          ∧ is_finite (opportunity_pct r) = true))
  ∧ area_or_zero GeometryCollection = 0%Q
  ∧ analyse [GeometryCollection] bl cl gl
    = Reported
        {| building_union := GeometryCollection;
           carpark_union := GeometryCollection;
           greenspace_union := GeometryCollection;
           opportunity_geom := GeometryCollection |}
        {| total_area := 0; building_area := 0; carpark_area := 0;
           greenspace_area := 0; opportunity_area := 0;
           building_pct := NaN; carpark_pct := NaN;
           greenspace_pct := NaN; opportunity_pct := NaN |}.
Proof.
  split; [| split; [reflexivity |]].
  - eexists _, _. split; [apply analyse_classes |].
    unfold area_calculations. simpl. rewrite !area_or_zero_area.
    repeat (split; [reflexivity |]).
    rewrite !pct_is_finite. pose proof (area_nonneg first) as Hge.
    split; [tauto |]. intros ([Hpos | Hneg] & _); [done |].
    exfalso. apply (Qlt_irrefl 0). by eapply Qle_lt_trans.
  - rewrite analyse_classes, classes_of_empty_boundary. reflexivity.
Qed.

(** C3, counterexample.  A degenerate boundary, the rectangle of width 2
    and height 0, has area 0 and is not rejected: the run over it ends
    with a report, and the four percentages in the report are NaN. *)
Lemma zero_area_boundary_reports_nan :
  (area (box 0 0 2 0) == 0)%Q
  ∧ (∀ msg,
       analyse [box 0 0 2 0] [box 0 0 2 2] [box 1 1 2 2] [] ≠ Stopped msg)
  ∧ analyse [box 0 0 2 0] [box 0 0 2 2] [box 1 1 2 2] []
    = Reported
        {| building_union := ∅; carpark_union := ∅;
           greenspace_union := ∅; opportunity_geom := ∅ |}
        {| total_area := 0; building_area := 0; carpark_area := 0;
           greenspace_area := 0; opportunity_area := 0;
           building_pct := NaN; carpark_pct := NaN;
           greenspace_pct := NaN; opportunity_pct := NaN |}.
Proof.
  split; [reflexivity |]. split; [| vm_compute; reflexivity].
  intros msg. vm_compute. discriminate.
Qed.

Lemma pct_zero (t : Q) :
  ¬ (t == 0)%Q →
  ∃ p, num_mul (true_div 0 t) 100 = Finite p ∧ (p == 0)%Q.
Proof.
  intros Ht. rewrite (pct_finite _ _ Ht). eexists. split; [reflexivity |].
  field. exact Ht.
Qed.

(** C5 (empty-input safety).  When the clip leaves no car park row (in
    particular when the car park layer is empty) the run produces a
    report in which the car park class is the empty geometry and its
    area is 0; its percentage is 0 over a boundary of positive area, and
    only there.  An empty layer passes through the differences of the
    priority rules as the empty geometry: subtracting from it gives the
    empty geometry and subtracting it changes nothing. *)
Theorem empty_carpark_safe (first : Geometry) (rest bl cl gl : list Geometry) :
  overlay_intersection cl (first :: rest) = [] →
  (∃ u r,
     analyse (first :: rest) bl cl gl = Reported u r
     ∧ carpark_union u = GeometryCollection
     ∧ is_empty (carpark_union u) = true
     ∧ carpark_area r = 0%Q
     ∧ ((0 < area first)%Q
        ↔ ∃ p, carpark_pct r = Finite p ∧ (p == 0)%Q))
  ∧ (∀ g, difference GeometryCollection g = GeometryCollection)
  ∧ (∀ g, difference g GeometryCollection = g)
  ∧ (∀ boundary bs gs,
       let u := apply_priority_rules boundary
                  {| buildings := bs; carpark := []; greenspace := gs |} in
       carpark_union u = GeometryCollection
       ∧ greenspace_union u = difference (unary_union gs) (unary_union bs))
  ∧ (∀ boundary cs gs,
       let u := apply_priority_rules boundary
                  {| buildings := []; carpark := cs; greenspace := gs |} in
       building_union u = GeometryCollection
       ∧ carpark_union u = unary_union cs)
  ∧ (∀ boundary bs cs,
       greenspace_union
         (apply_priority_rules boundary
            {| buildings := bs; carpark := cs; greenspace := [] |})
       = GeometryCollection)
  ∧ (∀ boundary,
       apply_priority_rules boundary
         {| buildings := []; carpark := []; greenspace := [] |}
       = {| building_union := GeometryCollection;
            carpark_union := GeometryCollection;
            greenspace_union := GeometryCollection;
            opportunity_geom := boundary |}).
Proof.
  intros Hclip.
  split; [| split; [| split; [| split; [| split; [| split]]]]].
  - assert (carpark_union (classes_of first rest bl cl gl) = ∅) as Hcp.
    { assert (clipped cl (first :: rest) = ∅) as Hcl.
      { unfold clipped. by rewrite <- union_overlay_intersection, Hclip. }
      unfold classes_of. cbv zeta. rewrite Hcl. simpl. set_solver. }
    eexists _, _. split; [apply analyse_classes |].
    split; [exact Hcp |]. split; [by rewrite Hcp |].
    unfold area_calculations. cbn [carpark_area carpark_pct]. rewrite Hcp.
    change (area_or_zero ∅) with 0%Q. split; [reflexivity |].
    pose proof (area_nonneg first) as Hge. split.
    + intros Hpos. apply pct_zero. intros Hz. rewrite Hz in Hpos.
      by apply Qlt_irrefl in Hpos.
    + intros (p & Hp & _).
      assert (is_finite (num_mul (true_div 0 (area first)) 100) = true) as Hf
        by (by rewrite Hp).
      apply pct_is_finite in Hf as [Hpos | Hneg]; [done |].
      exfalso. apply (Qlt_irrefl 0). by eapply Qle_lt_trans.
  - intros g. unfold difference, GeometryCollection. set_solver.
  - intros g. unfold difference, GeometryCollection. set_solver.
  - intros boundary bs gs u. subst u.
    rewrite apply_priority_rules_classify, classify_unions.
    cbn [carpark_union greenspace_union buildings carpark greenspace].
    change (unary_union []) with (∅ : Geometry).
    unfold difference, GeometryCollection. split; [set_solver |].
    f_equal. set_solver.
  - intros boundary cs gs u. subst u.
    rewrite apply_priority_rules_classify, classify_unions.
    cbn [carpark_union building_union buildings carpark greenspace].
    change (unary_union []) with (∅ : Geometry).
    unfold GeometryCollection. split; [reflexivity | set_solver].
  - intros boundary bs cs. unfold apply_priority_rules. reflexivity.
  - intros boundary.
    rewrite apply_priority_rules_classify, classify_unions.
    cbn [buildings carpark greenspace].
    change (unary_union []) with (∅ : Geometry).
    unfold GeometryCollection. f_equal; set_solver.
Qed.

(** C6 (priority monotonicity).  When a polygon [c] of the car park
    layer lies inside a polygon [b] of the buildings layer, the car park
    class of the run contains nothing of [c]: their intersection is
    empty, of area 0, and every clipped row of [c] is empty once the
    buildings are subtracted.  The building class is the whole of the
    clipped buildings layer, whatever the other two layers hold. *)
Theorem priority_monotonicity (first : Geometry)
    (rest bl cl gl : list Geometry) (c b : Geometry) :
  c ∈ cl → b ∈ bl → c ⊆ b →
  ∃ u r,
    analyse (first :: rest) bl cl gl = Reported u r
    ∧ intersection (carpark_union u) c = GeometryCollection
    ∧ (area (intersection (carpark_union u) c) == 0)%Q
    ∧ (∀ row, row ∈ first :: rest →
         difference (intersection c row) (building_union u)
         = GeometryCollection)
    ∧ building_union u
      = unary_union (overlay_intersection bl (first :: rest))
    ∧ building_area r
      = area (unary_union (overlay_intersection bl (first :: rest))).
Proof.
  intros Hc Hb Hcb.
  eexists _, _. split; [apply analyse_classes |].
  unfold classes_of, area_calculations. simpl.
  rewrite area_or_zero_area, union_overlay_intersection.
  fold (clipped bl (first :: rest)).
  assert (∀ x, x ∈ c → x ∈ unary_union (first :: rest) →
               x ∈ clipped bl (first :: rest)) as Hin.
  { intros x Hx Hrow. unfold clipped. apply elem_of_intersection.
    split; [| done]. apply elem_of_unary_union. exists b. split; [done |].
    by apply Hcb. }
  assert (intersection
            (clipped cl (first :: rest) ∖ clipped bl (first :: rest)) c
          = GeometryCollection) as Hempty.
  { unfold intersection, GeometryCollection. apply set_eq. intros x.
    rewrite elem_of_intersection, elem_of_difference.
    unfold clipped at 1. rewrite elem_of_intersection.
    split; [| by intros ?%not_elem_of_empty].
    intros [[[_ Hrow] Hnb] Hx]. exfalso. apply Hnb. by apply Hin. }
  split; [exact Hempty |]. split; [by rewrite Hempty |].
  split; [| done].
  intros row Hrow. unfold difference, intersection, GeometryCollection.
  apply set_eq. intros x. rewrite elem_of_difference, elem_of_intersection.
  split; [| by intros ?%not_elem_of_empty].
  intros [[Hx Hxr] Hnb]. exfalso. apply Hnb, Hin; [done |].
  apply elem_of_unary_union. by exists row.
Qed.

(** C8 (result projection).  [to_wgs84] returns [None] exactly when the
    geometry is empty and the reprojected geometry otherwise; the map
    draws the reprojected non-empty classes and nothing for an empty
    class. *)
Theorem to_wgs84_absent_iff_empty (to_crs_4326 : Geometry → Geometry)
    (geom : Geometry) (u : ClassUnions) :
  (to_wgs84 to_crs_4326 geom = None ↔ is_empty geom = true)
  ∧ (to_wgs84 to_crs_4326 geom = Some (to_crs_4326 geom)
     ↔ is_empty geom = false)
  ∧ to_wgs84 to_crs_4326 GeometryCollection = None
  ∧ truthy (to_wgs84 to_crs_4326 GeometryCollection) = false
  ∧ (∀ d, d ∈ drawn_layers (prepare_map_display to_crs_4326 u) →
       ∃ g, g ∈ [building_union u; carpark_union u;
                 greenspace_union u; opportunity_geom u]
            ∧ is_empty g = false ∧ d = Some (to_crs_4326 g)).
Proof.
  unfold to_wgs84.
  split; [| split; [| split; [reflexivity | split; [reflexivity |]]]].
  - by destruct (is_empty geom).
  - by destruct (is_empty geom).
  - intros d Hd. unfold drawn_layers, prepare_map_display in Hd.
    apply list_elem_of_filter in Hd as [Ht Hd]. simpl in Hd.
    assert (∀ g, d = to_wgs84 to_crs_4326 g →
                 is_empty g = false ∧ d = Some (to_crs_4326 g)) as Hone.
    { intros g ->. unfold to_wgs84 in *.
      by destruct (is_empty g). }
    rewrite !elem_of_cons, elem_of_nil in Hd.
    destruct Hd as [Hd | [Hd | [Hd | [Hd | []]]]];
      apply Hone in Hd as [He Hd]; eexists; (split; [| done]);
      rewrite !elem_of_cons; tauto.
Qed.

Lemma unary_union_perm (l1 l2 : list Geometry) :
  l1 ≡ₚ l2 → unary_union l1 = unary_union l2.
Proof.
  intros Hp. apply set_eq. intros x. rewrite !elem_of_unary_union.
  by setoid_rewrite Hp.
Qed.

(** The report depends on a layer only through the merged layer. *)
Lemma analyse_unions (rows bl cl gl bl' cl' gl' : list Geometry) :
  unary_union bl = unary_union bl' →
  unary_union cl = unary_union cl' →
  unary_union gl = unary_union gl' →
  analyse rows bl cl gl = analyse rows bl' cl' gl'.
Proof.
  intros Hb Hc Hg. destruct rows as [| first rest]; [reflexivity |].
  rewrite !analyse_classes. unfold classes_of, clipped.
  by rewrite Hb, Hc, Hg.
Qed.

(** C9 (determinism).  The outcome of a run is a function of its inputs,
    and it does not depend on the order of the rows of the three layers:
    reordering them gives the same class geometries and the same report,
    for the run from the boundary rows and for the run from the
    postcode. *)
Theorem rerun_deterministic (rows bl cl gl bl' cl' gl' : list Geometry)
    (postcode_input : string) (postcode_lookup : list postcode_row)
    (oa_layer : list oa_row) :
  bl ≡ₚ bl' → cl ≡ₚ cl' → gl ≡ₚ gl' →
  analyse rows bl cl gl = analyse rows bl' cl' gl'
  ∧ main postcode_input postcode_lookup oa_layer bl cl gl
    = main postcode_input postcode_lookup oa_layer bl' cl' gl'.
Proof.
  intros Hb%unary_union_perm Hc%unary_union_perm Hg%unary_union_perm.
  split; [by apply analyse_unions |].
  unfold main. destruct (filter _ postcode_lookup); [reflexivity |].
  by apply analyse_unions.
Qed.

(** C10 (first-row restriction).  Over a boundary frame of several rows
    the three classified surfaces together are the layers clipped to the
    union of all rows, while the opportunity surface is cut from the
    first row alone and the total area is the area of the first row, by
    which every percentage is taken; the reported areas add up to the
    area of the first row together with everything classified.  Over a
    frame of one row the clip region is that row and the areas add up to
    the total. *)
Theorem first_row_restriction (first : Geometry)
    (rest bl cl gl : list Geometry) :
  (∃ u r,
     analyse (first :: rest) bl cl gl = Reported u r
     ∧ building_union u ∪ carpark_union u ∪ greenspace_union u
       = (unary_union bl ∪ unary_union cl ∪ unary_union gl)
         ∩ unary_union (first :: rest)
     ∧ opportunity_geom u
       = difference first
           (unary_union [building_union u; carpark_union u;
                         greenspace_union u])
     ∧ total_area r = area first
     ∧ building_pct r = num_mul (true_div (building_area r) (area first)) 100
     ∧ carpark_pct r = num_mul (true_div (carpark_area r) (area first)) 100
     ∧ greenspace_pct r
       = num_mul (true_div (greenspace_area r) (area first)) 100
     ∧ opportunity_pct r
       = num_mul (true_div (opportunity_area r) (area first)) 100
     ∧ (class_area_sum r
        == area (first ∪ (unary_union bl ∪ unary_union cl ∪ unary_union gl)
                         ∩ unary_union (first :: rest)))%Q)
  ∧ unary_union [first] = first
  ∧ (∃ u r,
       analyse [first] bl cl gl = Reported u r
       ∧ (class_area_sum r == total_area r)%Q).
Proof.
  split; [| split].
  - eexists _, _. split; [apply analyse_classes |].
    set (R := unary_union (first :: rest)).
    assert (clipped bl (first :: rest) ∪ clipped cl (first :: rest)
            ∪ clipped gl (first :: rest)
            = (unary_union bl ∪ unary_union cl ∪ unary_union gl) ∩ R) as Hall.
    { unfold clipped. fold R. set_solver. }
    split.
    { rewrite <- Hall. unfold classes_of. simpl.
      apply set_eq. intros x.
      rewrite !elem_of_union, !elem_of_difference, !elem_of_union.
      destruct (decide (x ∈ clipped bl (first :: rest))),
        (decide (x ∈ clipped cl (first :: rest))); tauto. }
    split.
    { unfold classes_of.
      cbn [building_union carpark_union greenspace_union opportunity_geom].
      rewrite unary_union_triple.
      unfold difference. f_equal. apply set_eq. intros x.
      rewrite !elem_of_union, !elem_of_difference, !elem_of_union.
      destruct (decide (x ∈ clipped bl (first :: rest))),
        (decide (x ∈ clipped cl (first :: rest))); tauto. }
    repeat (split; [reflexivity |]).
    rewrite class_area_sum_classes. unfold classes_of. simpl.
    by rewrite classes_area, Hall.
  - unfold unary_union. simpl. by rewrite (right_id_L ∅ (∪)).
  - eexists _, _. split; [apply analyse_classes |].
    apply single_row_report_sum.
Qed.

(** ** Concrete runs *)

(** The scenario of the specification at one cell per 100 square metres:
    a boundary of 100 cells, 30 cells of buildings, 15 of car park of
    which 5 lie on buildings, 20 of greenspace of which 8 lie on
    buildings or car park. *)
Example run_scenario :
  analyse [box 0 0 10 10] [box 0 0 6 5] [box 5 0 3 5] [box 4 3 4 5]
  = Reported
      {| building_union := box 0 0 6 5;
         carpark_union := box 6 0 2 5;
         greenspace_union := box 4 5 4 3;
         opportunity_geom :=
           box 8 0 2 10 ∪ box 0 5 4 5 ∪ box 4 8 4 2 |}
      {| total_area := 100; building_area := 30; carpark_area := 10;
         greenspace_area := 12; opportunity_area := 48;
         building_pct := Finite (30 / 100 * 100);
         carpark_pct := Finite (10 / 100 * 100);
         greenspace_pct := Finite (12 / 100 * 100);
         opportunity_pct := Finite (48 / 100 * 100) |}.
Proof. vm_compute. reflexivity. Qed.

(** A boundary frame of two rows: the building straddles both rows and is
    kept whole, the opportunity surface and the total are those of the
    first row, and the areas add up to 5 against a total of 4. *)
Example run_two_rows :
  analyse [box 0 0 2 2; box 2 0 2 2] [box 1 0 2 1] [] []
  = Reported
      {| building_union := box 1 0 2 1;
         carpark_union := ∅;
         greenspace_union := ∅;
         opportunity_geom := box 0 0 1 2 ∪ box 1 1 1 1 |}
      {| total_area := 4; building_area := 2; carpark_area := 0;
         greenspace_area := 0; opportunity_area := 3;
         building_pct := Finite (2 / 4 * 100);
         carpark_pct := Finite (0 / 4 * 100);
         greenspace_pct := Finite (0 / 4 * 100);
         opportunity_pct := Finite (3 / 4 * 100) |}.
Proof. vm_compute. reflexivity. Qed.

(** The lookup from the postcode: the first matching row of the postcode
    table names the Output Area. *)
Example run_main :
  main "E16AN"
    [ {| pcds := "E15AA"; oa21 := "E00000001" |};
      {| pcds := "E16AN"; oa21 := "E00000002" |} ]
    [ {| OA21CD := "E00000001"; oa_geometry := box 0 0 2 2 |};
      {| OA21CD := "E00000002"; oa_geometry := box 2 0 2 2 |} ]
    [box 1 0 2 1] [] []
  = analyse [box 2 0 2 2] [box 1 0 2 1] [] []
  ∧ main "N19GU"
      [ {| pcds := "E15AA"; oa21 := "E00000001" |} ]
      [ {| OA21CD := "E00000001"; oa_geometry := box 0 0 2 2 |} ]
      [] [] []
    = Stopped "Postcode not found."
  ∧ main "E15AA"
      [ {| pcds := "E15AA"; oa21 := "E00000001" |} ]
      [ {| OA21CD := "E00000009"; oa_geometry := box 0 0 2 2 |} ]
      [] [] []
    = Stopped "Output Area geometry not found.".
Proof. repeat split; vm_compute; reflexivity. Qed.

(** ** Instances of the conditional properties *)

Lemma rerun_deterministic_witness :
  [box 0 0 2 2; box 1 1 2 2] ≡ₚ [box 1 1 2 2; box 0 0 2 2]
  ∧ [box 3 3 1 1] ≡ₚ [box 3 3 1 1]
  ∧ [box 0 3 2 1; box 1 3 2 1; box 0 0 1 1]
    ≡ₚ [box 0 0 1 1; box 0 3 2 1; box 1 3 2 1]
  ∧ analyse [box 0 0 4 4]
      [box 0 0 2 2; box 1 1 2 2] [box 3 3 1 1]
      [box 0 3 2 1; box 1 3 2 1; box 0 0 1 1]
    = analyse [box 0 0 4 4]
        [box 1 1 2 2; box 0 0 2 2] [box 3 3 1 1]
        [box 0 0 1 1; box 0 3 2 1; box 1 3 2 1]
  ∧ main "E15AA"
      [ {| pcds := "E15AA"; oa21 := "E00000001" |} ]
      [ {| OA21CD := "E00000001"; oa_geometry := box 0 0 4 4 |} ]
      [box 0 0 2 2; box 1 1 2 2] [box 3 3 1 1]
      [box 0 3 2 1; box 1 3 2 1; box 0 0 1 1]
    = main "E15AA"
        [ {| pcds := "E15AA"; oa21 := "E00000001" |} ]
        [ {| OA21CD := "E00000001"; oa_geometry := box 0 0 4 4 |} ]
        [box 1 1 2 2; box 0 0 2 2] [box 3 3 1 1]
        [box 0 0 1 1; box 0 3 2 1; box 1 3 2 1].
Proof.
  assert ([box 0 0 2 2; box 1 1 2 2] ≡ₚ [box 1 1 2 2; box 0 0 2 2]) as Hb
    by apply perm_swap.
  assert ([box 3 3 1 1] ≡ₚ [box 3 3 1 1]) as Hc by reflexivity.
  assert ([box 0 3 2 1; box 1 3 2 1; box 0 0 1 1]
          ≡ₚ [box 0 0 1 1; box 0 3 2 1; box 1 3 2 1]) as Hg.
  { symmetry.
    exact (Permutation_cons_append [box 0 3 2 1; box 1 3 2 1] (box 0 0 1 1)). }
  split; [exact Hb |]. split; [exact Hc |]. split; [exact Hg |].
  exact (rerun_deterministic [box 0 0 4 4] _ _ _ _ _ _ "E15AA"
           [ {| pcds := "E15AA"; oa21 := "E00000001" |} ]
           [ {| OA21CD := "E00000001"; oa_geometry := box 0 0 4 4 |} ]
           Hb Hc Hg).
Defined.

Lemma empty_carpark_safe_witness :
  overlay_intersection [box 10 10 2 2] [box 0 0 4 4] = []
  ∧ (∃ u r,
       analyse [box 0 0 4 4] [box 0 0 2 2] [box 10 10 2 2] [box 1 1 3 3]
       = Reported u r
       ∧ carpark_union u = GeometryCollection
       ∧ is_empty (carpark_union u) = true
       ∧ carpark_area r = 0%Q
       ∧ ((0 < area (box 0 0 4 4))%Q
          ↔ ∃ p, carpark_pct r = Finite p ∧ (p == 0)%Q))
  ∧ (∀ g, difference GeometryCollection g = GeometryCollection)
  ∧ (∀ g, difference g GeometryCollection = g)
  ∧ (∀ boundary bs gs,
       let u := apply_priority_rules boundary
                  {| buildings := bs; carpark := []; greenspace := gs |} in
       carpark_union u = GeometryCollection
       ∧ greenspace_union u = difference (unary_union gs) (unary_union bs))
  ∧ (∀ boundary cs gs,
       let u := apply_priority_rules boundary
                  {| buildings := []; carpark := cs; greenspace := gs |} in
       building_union u = GeometryCollection
       ∧ carpark_union u = unary_union cs)
  ∧ (∀ boundary bs cs,
       greenspace_union
         (apply_priority_rules boundary
            {| buildings := bs; carpark := cs; greenspace := [] |})
       = GeometryCollection)
  ∧ (∀ boundary,
       apply_priority_rules boundary
         {| buildings := []; carpark := []; greenspace := [] |}
       = {| building_union := GeometryCollection;
            carpark_union := GeometryCollection;
            greenspace_union := GeometryCollection;
            opportunity_geom := boundary |}).
Proof.
  split; [vm_compute; reflexivity |].
  apply (empty_carpark_safe (box 0 0 4 4) [] [box 0 0 2 2]
           [box 10 10 2 2] [box 1 1 3 3]).
  vm_compute. reflexivity.
Defined.

Lemma priority_monotonicity_witness :
  box 1 1 2 2 ∈ [box 1 1 2 2; box 2 2 2 2]
  ∧ box 0 0 3 3 ∈ [box 0 0 3 3]
  ∧ box 1 1 2 2 ⊆ box 0 0 3 3
  ∧ ∃ u r,
      analyse [box 0 0 4 4] [box 0 0 3 3] [box 1 1 2 2; box 2 2 2 2] []
      = Reported u r
      ∧ intersection (carpark_union u) (box 1 1 2 2) = GeometryCollection
      ∧ (area (intersection (carpark_union u) (box 1 1 2 2)) == 0)%Q
      ∧ (∀ row, row ∈ [box 0 0 4 4] →
           difference (intersection (box 1 1 2 2) row) (building_union u)
           = GeometryCollection)
      ∧ building_union u
        = unary_union (overlay_intersection [box 0 0 3 3] [box 0 0 4 4])
      ∧ building_area r
        = area (unary_union
                  (overlay_intersection [box 0 0 3 3] [box 0 0 4 4])).
Proof.
  assert (box 1 1 2 2 ∈ [box 1 1 2 2; box 2 2 2 2]) as Hc
    by (apply elem_of_cons; by left).
  assert (box 0 0 3 3 ∈ [box 0 0 3 3]) as Hb
    by (by apply list_elem_of_singleton).
  assert (box 1 1 2 2 ⊆ box 0 0 3 3) as Hcb
    by (apply (bool_decide_unpack _); vm_compute; exact I).
  split; [exact Hc |]. split; [exact Hb |]. split; [exact Hcb |].
  exact (priority_monotonicity (box 0 0 4 4) [] [box 0 0 3 3]
           [box 1 1 2 2; box 2 2 2 2] [] (box 1 1 2 2) (box 0 0 3 3)
           Hc Hb Hcb).
Defined.

(** ** The postcode: characters *)

Section PostcodeChars.

Ltac all_chars c := destruct c as [[] [] [] [] [] [] [] []]; reflexivity.

Lemma is_space_upper_char c : is_space (upper_char c) = is_space c.
Proof. all_chars c. Qed.

Lemma upper_char_idemp c : upper_char (upper_char c) = upper_char c.
Proof. all_chars c. Qed.

Lemma is_lower_upper_char c : is_lower (upper_char c) = false.
Proof. all_chars c. Qed.

Lemma upper_char_space_eqb c :
  Ascii.eqb (upper_char c) " " = Ascii.eqb c " ".
Proof. all_chars c. Qed.

Lemma upper_char_space c : upper_char c = " "%char ↔ c = " "%char.
Proof.
  rewrite <- !Ascii.eqb_eq. by rewrite upper_char_space_eqb.
Qed.

Lemma not_space_not_blank c : is_space c = false → c ≠ " "%char.
Proof. by intros Hc ->. Qed.

End PostcodeChars.

(** ** The postcode: stripping *)

Section PostcodeStrip.

Local Open Scope list_scope.
Local Open Scope nat_scope.

Implicit Types (s l m : list ascii) (c : ascii).

Lemma lstrip_chars_length s :
  (length (lstrip_chars s) ≤ length s)%nat.
Proof.
  induction s as [| c s IH]; simpl; [lia |].
  destruct (is_space c); simpl; lia.
Qed.

Lemma lstrip_chars_idemp s : lstrip_chars (lstrip_chars s) = lstrip_chars s.
Proof.
  induction s as [| c s IH]; [done |]. simpl.
  destruct (is_space c) eqn:Hc; [done |]. simpl. by rewrite Hc.
Qed.

(** A list fixed by [lstrip_chars] is empty or starts with a character
    that is no whitespace. *)
Lemma lstrip_chars_fixed s :
  lstrip_chars s = s ↔ s = [] ∨ ∃ c s', s = c :: s' ∧ is_space c = false.
Proof.
  split.
  - destruct s as [| c s']; [by left |]. simpl.
    destruct (is_space c) eqn:Hc; [| by right; eauto].
    intros Heq. pose proof (lstrip_chars_length s') as Hlen.
    rewrite Heq in Hlen. simpl in Hlen. lia.
  - intros [-> | (c & s' & -> & Hc)]; [done |]. simpl. by rewrite Hc.
Qed.

Lemma lstrip_chars_nil s :
  lstrip_chars s = [] ↔ Forall (λ c, is_space c = true) s.
Proof.
  induction s as [| c s IH]; [by split |]. simpl.
  destruct (is_space c) eqn:Hc.
  - rewrite IH. split; [by constructor | by inversion 1].
  - split; [done |]. inversion 1; congruence.
Qed.

Lemma lstrip_chars_app_nonspace l c m :
  is_space c = false →
  lstrip_chars (l ++ c :: m) = lstrip_chars l ++ c :: m.
Proof.
  intros Hc. induction l as [| d l IH]; simpl; [by rewrite Hc |].
  by destruct (is_space d).
Qed.

Lemma rstrip_chars_cons_nonspace c s :
  is_space c = false → rstrip_chars (c :: s) = c :: rstrip_chars s.
Proof.
  intros Hc. unfold rstrip_chars.
  by rewrite reverse_cons, lstrip_chars_app_nonspace, reverse_snoc.
Qed.

Lemma rstrip_chars_idemp s : rstrip_chars (rstrip_chars s) = rstrip_chars s.
Proof.
  unfold rstrip_chars. by rewrite reverse_involutive, lstrip_chars_idemp.
Qed.

Lemma lstrip_rstrip_fixed s :
  lstrip_chars s = s → lstrip_chars (rstrip_chars s) = rstrip_chars s.
Proof.
  intros [-> | (c & s' & -> & Hc)]%lstrip_chars_fixed; [done |].
  rewrite rstrip_chars_cons_nonspace by done. simpl. by rewrite Hc.
Qed.

Lemma strip_chars_lstrip s : lstrip_chars (strip_chars s) = strip_chars s.
Proof. apply lstrip_rstrip_fixed, lstrip_chars_idemp. Qed.

Lemma strip_chars_rstrip s : rstrip_chars (strip_chars s) = strip_chars s.
Proof. apply rstrip_chars_idemp. Qed.

Lemma strip_chars_idemp s : strip_chars (strip_chars s) = strip_chars s.
Proof.
  unfold strip_chars at 1. by rewrite strip_chars_lstrip, strip_chars_rstrip.
Qed.

Lemma strip_chars_nil s :
  strip_chars s = [] ↔ Forall (λ c, is_space c = true) s.
Proof.
  rewrite <- lstrip_chars_nil. split.
  - intros Hs. destruct (lstrip_chars s) as [| c s'] eqn:Hl; [done |].
    assert (is_space c = false) as Hc.
    { pose proof (lstrip_chars_idemp s) as Hi. rewrite Hl in Hi.
      apply lstrip_chars_fixed in Hi as [? | (? & ? & [= <- <-] & ?)]; done. }
    unfold strip_chars in Hs. rewrite Hl in Hs.
    by rewrite rstrip_chars_cons_nonspace in Hs.
  - intros Hl. unfold strip_chars. by rewrite Hl.
Qed.

(** Removing the spaces and stripping commute. *)
Lemma remove_space_lstrip s :
  remove_space_chars (lstrip_chars s) = lstrip_chars (remove_space_chars s).
Proof.
  unfold remove_space_chars.
  induction s as [| c s IH]; [done |]. simpl.
  destruct (is_space c) eqn:Hc.
  - rewrite IH, filter_cons. destruct (decide (c ≠ " "%char)); [| done].
    simpl. by rewrite Hc.
  - rewrite !filter_cons_True by by apply not_space_not_blank.
    simpl. by rewrite Hc.
Qed.

Lemma remove_space_rstrip s :
  remove_space_chars (rstrip_chars s) = rstrip_chars (remove_space_chars s).
Proof.
  unfold rstrip_chars. fold (remove_space_chars (reverse s)).
  unfold remove_space_chars at 1. rewrite filter_reverse.
  fold (remove_space_chars (lstrip_chars (reverse s))).
  rewrite remove_space_lstrip. unfold remove_space_chars.
  by rewrite filter_reverse.
Qed.

Lemma remove_space_strip s :
  remove_space_chars (strip_chars s) = strip_chars (remove_space_chars s).
Proof.
  unfold strip_chars. by rewrite remove_space_rstrip, remove_space_lstrip.
Qed.

Lemma remove_space_idemp s :
  remove_space_chars (remove_space_chars s) = remove_space_chars s.
Proof.
  unfold remove_space_chars. rewrite list_filter_filter.
  apply list_filter_iff. tauto.
Qed.

(** Upper-casing commutes with both. *)
Lemma upper_lstrip s :
  upper_char <$> lstrip_chars s = lstrip_chars (upper_char <$> s).
Proof.
  induction s as [| c s IH]; [done |]. simpl.
  rewrite is_space_upper_char. by destruct (is_space c).
Qed.

Lemma upper_strip s :
  upper_char <$> strip_chars s = strip_chars (upper_char <$> s).
Proof.
  unfold strip_chars, rstrip_chars.
  by rewrite fmap_reverse, upper_lstrip, fmap_reverse, upper_lstrip.
Qed.

Lemma upper_remove_space s :
  upper_char <$> remove_space_chars s
  = remove_space_chars (upper_char <$> s).
Proof.
  unfold remove_space_chars.
  induction s as [| c s IH]; [done |]. rewrite fmap_cons, !filter_cons.
  destruct (decide (c ≠ " "%char)) as [Hc | Hc];
    destruct (decide (upper_char c ≠ " "%char)) as [Hu | Hu].
  - by rewrite fmap_cons, IH.
  - exfalso. apply Hu. intros Heq.
    apply (proj1 (upper_char_space c)) in Heq. contradiction.
  - exfalso. apply Hc. intros Heq. apply Hu. by apply upper_char_space.
  - exact IH.
Qed.

End PostcodeStrip.

(** ** The postcode: normalisation *)

Section PostcodeNormalise.

Local Open Scope list_scope.

Implicit Types (s t : string) (l : list ascii) (c : ascii).

Lemma chars_of_chars l : chars (of_chars l) = l.
Proof. apply String.list_ascii_of_string_of_list_ascii. Qed.

Lemma of_chars_chars s : of_chars (chars s) = s.
Proof. apply String.string_of_list_ascii_of_string. Qed.

Lemma chars_inj s t : chars s = chars t → s = t.
Proof. intros H. by rewrite <- (of_chars_chars s), H, of_chars_chars. Qed.

Lemma chars_app s t : chars (String.append s t) = chars s ++ chars t.
Proof. induction s as [| c s IH]; simpl; [done |]. by rewrite IH. Qed.

Lemma chars_normalise s :
  chars (normalise s)
  = remove_space_chars (strip_chars (upper_char <$> chars s)).
Proof.
  unfold normalise, remove_spaces, strip, upper.
  by rewrite !chars_of_chars.
Qed.

Lemma elem_of_lstrip_chars c l : c ∈ lstrip_chars l → c ∈ l.
Proof.
  induction l as [| d l IH]; simpl; [done |].
  destruct (is_space d); [| done]. intros H. right. by apply IH.
Qed.

Lemma elem_of_strip_chars c l : c ∈ strip_chars l → c ∈ l.
Proof.
  unfold strip_chars, rstrip_chars. rewrite elem_of_reverse.
  intros H%elem_of_lstrip_chars. rewrite elem_of_reverse in H.
  by apply elem_of_lstrip_chars.
Qed.

(** A stripped list neither starts nor ends with whitespace. *)
Lemma strip_chars_ends l c :
  head (strip_chars l) = Some c ∨ last (strip_chars l) = Some c →
  is_space c = false.
Proof.
  intros [Hh | Hl].
  - pose proof (strip_chars_lstrip l) as Hfix.
    apply lstrip_chars_fixed in Hfix as [Hnil | (d & l' & Heq & Hd)].
    + by rewrite Hnil in Hh.
    + rewrite Heq in Hh. by injection Hh as <-.
  - pose proof (strip_chars_rstrip l) as Hfix. unfold rstrip_chars in Hfix.
    assert (lstrip_chars (reverse (strip_chars l)) = reverse (strip_chars l))
      as Hrev.
    { rewrite <- Hfix at 2. by rewrite reverse_involutive. }
    rewrite <- head_reverse in Hl.
    apply lstrip_chars_fixed in Hrev as [Hnil | (d & l' & Heq & Hd)].
    + by rewrite Hnil in Hl.
    + rewrite Heq in Hl. by injection Hl as <-.
Qed.

Lemma normalise_nil_chars l :
  remove_space_chars (strip_chars l) = []
  ↔ Forall (λ c, is_space c = true) l.
Proof.
  rewrite <- strip_chars_nil. split; [| by intros ->].
  intros Hrs. destruct (strip_chars l) as [| c l'] eqn:Hs; [done |].
  assert (is_space c = false) as Hc.
  { apply (strip_chars_ends l). left. by rewrite Hs. }
  unfold remove_space_chars in Hrs.
  by rewrite filter_cons_True in Hrs by by apply not_space_not_blank.
Qed.

Lemma Forall_space_upper l :
  Forall (λ c, is_space c = true) (upper_char <$> l)
  ↔ Forall (λ c, is_space c = true) l.
Proof.
  rewrite Forall_fmap. apply Forall_proper; [| done].
  intros c. simpl. by rewrite is_space_upper_char.
Qed.

End PostcodeNormalise.

(** ** Properties of the postcode handling *)

(** X1.  A normalised postcode holds no space and no lower-case letter,
    and neither starts nor ends with whitespace. *)
Theorem normalise_normal_form (s : string) :
  (" "%char ∉ (chars (normalise s) : list ascii))
  ∧ Forall (λ c, is_lower c = false) (chars (normalise s))
  ∧ (∀ c, head (chars (normalise s)) = Some c → is_space c = false)
  ∧ (∀ c, last (chars (normalise s)) = Some c → is_space c = false).
Proof.
  rewrite chars_normalise. split; [| split; [| split]].
  - unfold remove_space_chars. rewrite list_elem_of_filter. tauto.
  - apply Forall_forall. intros c Hc. unfold remove_space_chars in Hc.
    apply list_elem_of_filter in Hc as [_ Hc].
    apply elem_of_strip_chars, list_elem_of_fmap in Hc as (d & -> & _).
    apply is_lower_upper_char.
  - intros c Hc. rewrite remove_space_strip in Hc.
    eapply strip_chars_ends. left. exact Hc.
  - intros c Hc. rewrite remove_space_strip in Hc.
    eapply strip_chars_ends. right. exact Hc.
Qed.

(** X2.  Normalising is idempotent: a normalised postcode is left as it
    is, so the input and the table column, normalised separately, are
    compared in one form. *)
Theorem normalise_idemp (s : string) : normalise (normalise s) = normalise s.
Proof.
  apply chars_inj. rewrite !chars_normalise.
  rewrite upper_remove_space, upper_strip.
  rewrite <- list_fmap_compose.
  rewrite (list_fmap_ext (upper_char ∘ upper_char) upper_char)
    by (intros; apply upper_char_idemp).
  rewrite <- remove_space_strip, strip_chars_idemp.
  apply remove_space_idemp.
Qed.

(** X3.  The normal form does not see spaces, wherever they are typed,
    nor the case of letters, nor whitespace around the postcode. *)
Theorem normalise_insensitive (s t : string) :
  normalise (String.append s (String.append " " t))
  = normalise (String.append s t)
  ∧ normalise (upper s) = normalise s
  ∧ normalise (strip s) = normalise s
  ∧ normalise (remove_spaces s) = normalise s.
Proof.
  repeat split; apply chars_inj; rewrite !chars_normalise.
  - rewrite !chars_app, !fmap_app, !remove_space_strip. f_equal.
    unfold remove_space_chars. rewrite !filter_app. f_equal.
  - unfold upper. rewrite chars_of_chars, <- list_fmap_compose.
    by rewrite (list_fmap_ext (upper_char ∘ upper_char) upper_char)
      by (intros; apply upper_char_idemp).
  - unfold strip. by rewrite chars_of_chars, upper_strip, strip_chars_idemp.
  - unfold remove_spaces.
    rewrite chars_of_chars, upper_remove_space, !remove_space_strip.
    by rewrite remove_space_idemp.
Qed.

(** X4.  For ASCII text, the normalised input is empty exactly when the
    text holds whitespace only; then, and only then, the script runs
    nothing and shows neither report nor error. *)
Theorem blank_input_skipped (text_input : string)
    (csv : list csv_row) (oa_layer : list oa_row)
    (bl cl gl : list Geometry) :
  ascii_text text_input →
  (normalise text_input = "" ↔ blank text_input)
  ∧ (app text_input csv oa_layer bl cl gl = None ↔ blank text_input)
  ∧ (¬ blank text_input →
     app text_input csv oa_layer bl cl gl
     = Some (main (normalise text_input) (load_postcode_lookup csv)
               oa_layer bl cl gl)).
Proof.
  intros _.
  assert (normalise text_input = "" ↔ blank text_input) as Hblank.
  { unfold blank. rewrite <- Forall_space_upper, <- normalise_nil_chars.
    rewrite <- chars_normalise. split; [by intros -> |].
    intros H. by apply chars_inj. }
  split; [exact Hblank |]. unfold app. cbv zeta.
  destruct (bool_decide (normalise text_input = "")) eqn:Hb.
  - apply bool_decide_eq_true in Hb. apply Hblank in Hb.
    split; [done |]. by intros [].
  - apply bool_decide_eq_false in Hb. rewrite Hblank in Hb.
    split; [| done]. split; [done |]. by intros ?.
Qed.

(** ** Properties of the two lookups *)

Section Lookups.

Local Open Scope list_scope.

Implicit Types (lookup csv : list postcode_row) (oa : list oa_row)
  (bl cl gl : list Geometry).

Lemma analyse_stopped rows bl cl gl msg :
  analyse rows bl cl gl = Stopped msg
  ↔ rows = [] ∧ msg = "Output Area geometry not found.".
Proof.
  destruct rows as [| first rest]; simpl.
  - split; [by intros [= <-] | by intros [_ ->]].
  - split; [done | by intros [? _]].
Qed.

Lemma main_first_match lookup r oa bl cl gl pc rest :
  filter (λ r, pcds r = pc) lookup = r :: rest →
  main pc lookup oa bl cl gl
  = analyse (oa_geometry <$> filter (λ o, OA21CD o = oa21 r) oa) bl cl gl.
Proof. intros Hf. unfold main. by rewrite Hf. Qed.

Lemma main_postcode_miss pc lookup oa bl cl gl :
  main pc lookup oa bl cl gl = Stopped "Postcode not found."
  ↔ ∀ r, r ∈ lookup → pcds r ≠ pc.
Proof.
  unfold main.
  destruct (filter (λ r, pcds r = pc) lookup) as [| r rest] eqn:Hf.
  - split; [| done]. intros _ r Hr Hpc.
    assert (r ∈ filter (λ r, pcds r = pc) lookup) as Hin
      by by apply list_elem_of_filter.
    rewrite Hf in Hin. by apply elem_of_nil in Hin.
  - split.
    + intros [_ [=]]%analyse_stopped.
    + intros Hall. exfalso.
      assert (r ∈ filter (λ r, pcds r = pc) lookup) as Hin
        by (rewrite Hf; by left).
      apply list_elem_of_filter in Hin as [Hpc Hin]. by apply (Hall r).
Qed.

Lemma filter_first_match lookup pc l1 r l2 :
  lookup = l1 ++ r :: l2 →
  (∀ r', r' ∈ l1 → pcds r' ≠ pc) → pcds r = pc →
  filter (λ r, pcds r = pc) lookup
  = r :: filter (λ r, pcds r = pc) l2.
Proof.
  intros -> Hl1 Hr. rewrite filter_app, filter_cons_True by done.
  assert (filter (λ r, pcds r = pc) l1 = []) as ->; [| done].
  induction l1 as [| a l1 IH]; [done |].
  rewrite filter_cons_False by (apply Hl1; by left).
  apply IH. intros r' Hr'. apply Hl1. by right.
Qed.

End Lookups.

Lemma blank_or_main (text_input : string) (csv : list csv_row)
    (oa_layer : list oa_row) (bl cl gl : list Geometry) :
  (blank text_input ∧ app text_input csv oa_layer bl cl gl = None)
  ∨ (¬ blank text_input
     ∧ app text_input csv oa_layer bl cl gl
       = Some (main (normalise text_input) (load_postcode_lookup csv)
                 oa_layer bl cl gl)).
Proof.
  assert (normalise text_input = "" ↔ blank text_input) as Hblank.
  { unfold blank. rewrite <- Forall_space_upper, <- normalise_nil_chars.
    rewrite <- chars_normalise. split; [by intros -> |].
    intros H. by apply chars_inj. }
  unfold app. cbv zeta.
  destruct (bool_decide (normalise text_input = "")) eqn:Hb.
  - apply bool_decide_eq_true in Hb. left. by rewrite <- Hblank.
  - apply bool_decide_eq_false in Hb. right. by rewrite <- Hblank.
Qed.

(** X5.  For ASCII text in the input box and in the [pcds] cells, the
    run ends with "Postcode not found." exactly when the input is not
    blank and no cell of the [pcds] column holds a string with the
    normal form of the input: the match is made on normal forms on both
    sides, so neither spaces nor letter case in the input or in the
    table prevent it, and a missing value matches nothing. *)
Theorem postcode_not_found_iff (text_input : string)
    (csv : list csv_row) (oa_layer : list oa_row)
    (bl cl gl : list Geometry) :
  ascii_text text_input →
  (∀ r p, r ∈ csv → csv_pcds r = Some p → ascii_text p) →
  app text_input csv oa_layer bl cl gl = Some (Stopped "Postcode not found.")
  ↔ ¬ blank text_input
    ∧ ∀ r p, r ∈ csv → csv_pcds r = Some p →
             normalise p ≠ normalise text_input.
Proof.
  intros _ _.
  destruct (blank_or_main text_input csv oa_layer bl cl gl)
    as [[Hb Happ] | [Hb Happ]]; rewrite Happ.
  - split; [done | by intros [? _]].
  - split.
    + intros [= Hmain]. split; [done |].
      intros r p Hr Hp.
      apply (proj1 (main_postcode_miss _ _ _ _ _ _) Hmain
               {| pcds := normalise p; oa21 := csv_oa21 r |}).
      unfold load_postcode_lookup. apply list_elem_of_omap.
      exists r. split; [done |]. by rewrite Hp.
    + intros [_ Hall]. f_equal. apply main_postcode_miss.
      intros r' Hr'. unfold load_postcode_lookup in Hr'.
      apply list_elem_of_omap in Hr' as (r & Hr & Hf).
      destruct (csv_pcds r) as [p |] eqn:Hp; [| done].
      simpl in Hf. injection Hf as <-. simpl. by apply (Hall r).
Qed.

(** X6.  The first row of the postcode table that matches decides the
    Output Area, whatever later rows say, and only the rows of the
    Output Area table with that code are used: the run is the analysis
    of those rows.  It ends with "Output Area geometry not found."
    exactly when the table has no row with the code, and with a report
    exactly when it has one. *)
Theorem first_match_decides (postcode_input : string)
    (l1 l2 : list postcode_row) (r : postcode_row)
    (oa_layer : list oa_row) (bl cl gl : list Geometry) :
  (∀ r', r' ∈ l1 → pcds r' ≠ postcode_input) →
  pcds r = postcode_input →
  main postcode_input (l1 ++ r :: l2) oa_layer bl cl gl
  = analyse (oa_geometry <$> filter (λ o, OA21CD o = oa21 r) oa_layer)
      bl cl gl
  ∧ (main postcode_input (l1 ++ r :: l2) oa_layer bl cl gl
     = Stopped "Output Area geometry not found."
     ↔ ∀ o, o ∈ oa_layer → OA21CD o ≠ oa21 r)
  ∧ ((∃ u rep,
        main postcode_input (l1 ++ r :: l2) oa_layer bl cl gl
        = Reported u rep)
     ↔ ∃ o, o ∈ oa_layer ∧ OA21CD o = oa21 r).
Proof.
  intros Hl1 Hr.
  pose proof (filter_first_match (l1 ++ r :: l2) postcode_input l1 r l2
                eq_refl Hl1 Hr) as Hf.
  rewrite (main_first_match _ _ oa_layer bl cl gl _ _ Hf).
  split; [reflexivity |].
  destruct (filter (λ o, OA21CD o = oa21 r) oa_layer) as [| o rows] eqn:Ho.
  - assert (∀ o, o ∈ oa_layer → OA21CD o ≠ oa21 r) as Hnone.
    { intros o Hin Hcode.
      assert (o ∈ filter (λ o, OA21CD o = oa21 r) oa_layer) as Hin'
        by by apply list_elem_of_filter.
      rewrite Ho in Hin'. by apply elem_of_nil in Hin'. }
    split; [done |]. split; [by intros (? & ? & ?) |].
    intros (o & Hin & Hcode). by destruct (Hnone o Hin).
  - assert (o ∈ oa_layer ∧ OA21CD o = oa21 r) as [Hin Hcode].
    { assert (o ∈ filter (λ o, OA21CD o = oa21 r) oa_layer) as Hin'
        by (rewrite Ho; by left).
      apply list_elem_of_filter in Hin'. tauto. }
    rewrite fmap_cons, analyse_cons. split.
    + split; [done |]. intros Hnone. by destruct (Hnone o Hin).
    + split; [by exists o | eauto].
Qed.

(** ** Further properties of the classification *)

Section Classification.

Implicit Types (b first : Geometry) (rest bl cl gl : list Geometry).

Lemma first_in_rows first rest : first ⊆ unary_union (first :: rest).
Proof. unfold unary_union. simpl. set_solver. Qed.

Lemma unary_union_app (l1 l2 : list Geometry) :
  unary_union (l1 ++ l2) = unary_union l1 ∪ unary_union l2.
Proof. unfold unary_union. by rewrite union_list_app_L. Qed.

Lemma area_subseteq (a c : Geometry) : a ⊆ c → (area a <= area c)%Q.
Proof.
  intros Hs. unfold area. rewrite <- Zle_Qle.
  apply Nat2Z.inj_le. by apply subseteq_size.
Qed.

(** The outcome depends on a layer only through its part inside the
    boundary frame. *)
Lemma analyse_clipped rows bl cl gl bl' cl' gl' :
  clipped bl rows = clipped bl' rows →
  clipped cl rows = clipped cl' rows →
  clipped gl rows = clipped gl' rows →
  analyse rows bl cl gl = analyse rows bl' cl' gl'.
Proof.
  intros Hb Hc Hg. destruct rows as [| first rest]; [reflexivity |].
  rewrite !analyse_classes. unfold classes_of. by rewrite Hb, Hc, Hg.
Qed.

Lemma pct_bounds (a t : Q) :
  (0 <= a)%Q → (a <= t)%Q → (0 < t)%Q →
  (0 <= a / t * 100)%Q ∧ (a / t * 100 <= 100)%Q.
Proof.
  intros Ha Hat Ht. split.
  - apply Qmult_le_0_compat; [| done].
    apply Qle_shift_div_l; [done |]. by rewrite Qmult_0_l.
  - assert (a / t <= 1)%Q as Hle.
    { apply Qle_shift_div_r; [done |]. by rewrite Qmult_1_l. }
    assert (100 == 1 * 100)%Q as Heq by reflexivity.
    rewrite Heq at 2. by apply Qmult_le_compat_r.
Qed.

End Classification.

(** X7.  The class of a cell follows the priority order of the script:
    inside the boundary frame a cell covered by a building is a
    building cell; else, covered by a car park, a car park cell; else,
    covered by greenspace, a greenspace cell; and a cell of the first
    boundary row that no layer covers is an opportunity cell. *)
Theorem priority_order_pointwise (first : Geometry)
    (rest bl cl gl : list Geometry) :
  ∃ u r,
    analyse (first :: rest) bl cl gl = Reported u r
    ∧ ∀ x,
        (x ∈ building_union u
         ↔ x ∈ unary_union (first :: rest) ∧ x ∈ unary_union bl)
        ∧ (x ∈ carpark_union u
           ↔ x ∈ unary_union (first :: rest)
             ∧ (x ∉ unary_union bl) ∧ x ∈ unary_union cl)
        ∧ (x ∈ greenspace_union u
           ↔ x ∈ unary_union (first :: rest)
             ∧ (x ∉ unary_union bl) ∧ (x ∉ unary_union cl)
             ∧ x ∈ unary_union gl)
        ∧ (x ∈ opportunity_geom u
           ↔ x ∈ first
             ∧ (x ∉ unary_union bl) ∧ (x ∉ unary_union cl)
             ∧ (x ∉ unary_union gl)).
Proof.
  eexists _, _. split; [apply analyse_classes |].
  intros x. unfold classes_of, clipped.
  cbn [building_union carpark_union greenspace_union opportunity_geom].
  pose proof (first_in_rows first rest) as Hfirst.
  set (R := unary_union (first :: rest)) in *.
  rewrite !elem_of_difference, !elem_of_union, !elem_of_intersection.
  assert (x ∈ first → x ∈ R) as Hx by (intros ?; by apply Hfirst).
  repeat split; tauto.
Qed.

(** X8.  Over a boundary frame of one row the four classes tile the
    boundary: a cell lies in the boundary exactly when it lies in
    exactly one class, and the four classes together are the boundary. *)
Theorem classes_tile_boundary (b : Geometry) (bl cl gl : list Geometry) :
  ∃ u r,
    analyse [b] bl cl gl = Reported u r
    ∧ building_union u ∪ carpark_union u ∪ greenspace_union u
      ∪ opportunity_geom u = b
    ∧ ∀ x,
        x ∈ b
        ↔ (x ∈ building_union u ∧ (x ∉ carpark_union u)
           ∧ (x ∉ greenspace_union u) ∧ (x ∉ opportunity_geom u))
          ∨ ((x ∉ building_union u) ∧ x ∈ carpark_union u
             ∧ (x ∉ greenspace_union u) ∧ (x ∉ opportunity_geom u))
          ∨ ((x ∉ building_union u) ∧ (x ∉ carpark_union u)
             ∧ x ∈ greenspace_union u ∧ (x ∉ opportunity_geom u))
          ∨ ((x ∉ building_union u) ∧ (x ∉ carpark_union u)
             ∧ (x ∉ greenspace_union u) ∧ x ∈ opportunity_geom u).
Proof.
  eexists _, _. split; [apply analyse_classes |].
  unfold classes_of. simpl.
  pose proof (clipped_single bl b) as Hb.
  pose proof (clipped_single cl b) as Hc.
  pose proof (clipped_single gl b) as Hg.
  assert (∀ x,
    (x ∈ clipped bl [b] → x ∈ b) ∧ (x ∈ clipped cl [b] → x ∈ b)
    ∧ (x ∈ clipped gl [b] → x ∈ b)) as Hin.
  { intros x. repeat split; intros ?; [by apply Hb | by apply Hc | by apply Hg]. }
  split.
  - apply set_eq. intros x. specialize (Hin x).
    rewrite !elem_of_union, !elem_of_difference, !elem_of_union.
    destruct (decide (x ∈ clipped bl [b])), (decide (x ∈ clipped cl [b])),
      (decide (x ∈ clipped gl [b])); tauto.
  - intros x. specialize (Hin x).
    rewrite !elem_of_difference, !elem_of_union.
    destruct (decide (x ∈ clipped bl [b])), (decide (x ∈ clipped cl [b])),
      (decide (x ∈ clipped gl [b])); tauto.
Qed.

(** X9.  What lies outside the boundary frame never reaches the report:
    two runs whose layers have the same part inside the frame, layer by
    layer, end alike, however the layers are cut into polygons and
    whatever they hold elsewhere. *)
Theorem outside_boundary_ignored (rows bl cl gl bl' cl' gl' : list Geometry) :
  unary_union bl ∩ unary_union rows = unary_union bl' ∩ unary_union rows →
  unary_union cl ∩ unary_union rows = unary_union cl' ∩ unary_union rows →
  unary_union gl ∩ unary_union rows = unary_union gl' ∩ unary_union rows →
  analyse rows bl cl gl = analyse rows bl' cl' gl'.
Proof. apply analyse_clipped. Qed.

(** X10.  Over a boundary frame of one row of positive area every
    reported area lies between 0 and the total area and every
    percentage between 0 and 100. *)
Theorem percentages_within_bounds (b : Geometry) (bl cl gl : list Geometry) :
  (0 < area b)%Q →
  ∃ u r p1 p2 p3 p4,
    analyse [b] bl cl gl = Reported u r
    ∧ (0 <= building_area r <= total_area r)%Q
    ∧ (0 <= carpark_area r <= total_area r)%Q
    ∧ (0 <= greenspace_area r <= total_area r)%Q
    ∧ (0 <= opportunity_area r <= total_area r)%Q
    ∧ building_pct r = Finite p1 ∧ (0 <= p1 <= 100)%Q
    ∧ carpark_pct r = Finite p2 ∧ (0 <= p2 <= 100)%Q
    ∧ greenspace_pct r = Finite p3 ∧ (0 <= p3 <= 100)%Q
    ∧ opportunity_pct r = Finite p4 ∧ (0 <= p4 <= 100)%Q.
Proof.
  intros Hpos.
  assert (¬ (area b == 0)%Q) as Hne.
  { intros Hz. rewrite Hz in Hpos. by apply Qlt_irrefl in Hpos. }
  pose proof (clipped_single bl b) as Hb.
  pose proof (clipped_single cl b) as Hc.
  pose proof (clipped_single gl b) as Hg.
  assert (∀ g, g ⊆ b →
            (0 <= area_or_zero g <= area b)%Q
            ∧ (0 <= area_or_zero g / area b * 100 <= 100)%Q) as Hone.
  { intros g Hgb. rewrite area_or_zero_area.
    pose proof (area_nonneg g). pose proof (area_subseteq g b Hgb).
    split; [done |]. by apply pct_bounds. }
  eexists _, _, _, _, _, _. split; [apply analyse_classes |].
  unfold area_calculations, classes_of. simpl.
  rewrite !(pct_finite _ _ Hne).
  destruct (Hone (clipped bl [b])) as [? ?]; [done |].
  destruct (Hone (clipped cl [b] ∖ clipped bl [b])) as [? ?]; [set_solver |].
  destruct (Hone (clipped gl [b] ∖ (clipped bl [b] ∪ clipped cl [b])))
    as [? ?]; [set_solver |].
  destruct (Hone (b ∖ (clipped bl [b] ∪ clipped cl [b] ∪ clipped gl [b])))
    as [? ?]; [set_solver |].
  repeat (split; [done |]). done.
Qed.

(** X11.  More cover never means more opportunity: when polygons are
    added to the layers the opportunity surface and its area can only
    shrink and the building class can only grow.  When only buildings
    are added, the car park and greenspace classes can only shrink. *)
Theorem more_cover_less_opportunity (first : Geometry)
    (rest bl cl gl bl2 cl2 gl2 : list Geometry) :
  ∃ u r u' r' u'' r'',
    analyse (first :: rest) bl cl gl = Reported u r
    ∧ analyse (first :: rest) (bl ++ bl2) (cl ++ cl2) (gl ++ gl2)
      = Reported u' r'
    ∧ analyse (first :: rest) (bl ++ bl2) cl gl = Reported u'' r''
    ∧ opportunity_geom u' ⊆ opportunity_geom u
    ∧ (opportunity_area r' <= opportunity_area r)%Q
    ∧ building_union u ⊆ building_union u'
    ∧ (building_area r <= building_area r')%Q
    ∧ carpark_union u'' ⊆ carpark_union u
    ∧ (carpark_area r'' <= carpark_area r)%Q
    ∧ greenspace_union u'' ⊆ greenspace_union u
    ∧ (greenspace_area r'' <= greenspace_area r)%Q.
Proof.
  eexists _, _, _, _, _, _.
  split; [apply analyse_classes |]. split; [apply analyse_classes |].
  split; [apply analyse_classes |].
  unfold area_calculations, classes_of, clipped.
  cbn [building_union carpark_union greenspace_union opportunity_geom
       building_area carpark_area greenspace_area opportunity_area].
  rewrite !area_or_zero_area, !unary_union_app.
  set (R := unary_union (first :: rest)).
  assert (first ∖ ((unary_union bl ∪ unary_union bl2) ∩ R
                   ∪ (unary_union cl ∪ unary_union cl2) ∩ R
                   ∪ (unary_union gl ∪ unary_union gl2) ∩ R)
          ⊆ first ∖ (unary_union bl ∩ R ∪ unary_union cl ∩ R
                      ∪ unary_union gl ∩ R)) as Ho by set_solver.
  assert (unary_union bl ∩ R ⊆ (unary_union bl ∪ unary_union bl2) ∩ R)
    as Hb by set_solver.
  assert (unary_union cl ∩ R ∖ ((unary_union bl ∪ unary_union bl2) ∩ R)
          ⊆ unary_union cl ∩ R ∖ (unary_union bl ∩ R)) as Hc by set_solver.
  assert (unary_union gl ∩ R
            ∖ ((unary_union bl ∪ unary_union bl2) ∩ R ∪ unary_union cl ∩ R)
          ⊆ unary_union gl ∩ R ∖ (unary_union bl ∩ R ∪ unary_union cl ∩ R))
    as Hg by set_solver.
  repeat split; try done; by apply area_subseteq.
Qed.

(** X12.  Where no polygon of any layer meets the boundary frame, the
    three classified surfaces are empty with area 0 and the whole first
    boundary row is opportunity; over a first row of positive area its
    percentage is 100 and the other three are 0. *)
Theorem nothing_mapped_all_opportunity (first : Geometry)
    (rest bl cl gl : list Geometry) :
  overlay_intersection bl (first :: rest) = [] →
  overlay_intersection cl (first :: rest) = [] →
  overlay_intersection gl (first :: rest) = [] →
  (0 < area first)%Q →
  ∃ r p1 p2 p3 p4,
    analyse (first :: rest) bl cl gl
    = Reported
        {| building_union := GeometryCollection;
           carpark_union := GeometryCollection;
           greenspace_union := GeometryCollection;
           opportunity_geom := first |} r
    ∧ building_area r = 0%Q ∧ carpark_area r = 0%Q
    ∧ greenspace_area r = 0%Q ∧ opportunity_area r = total_area r
    ∧ building_pct r = Finite p1 ∧ (p1 == 0)%Q
    ∧ carpark_pct r = Finite p2 ∧ (p2 == 0)%Q
    ∧ greenspace_pct r = Finite p3 ∧ (p3 == 0)%Q
    ∧ opportunity_pct r = Finite p4 ∧ (p4 == 100)%Q.
Proof.
  intros Hb Hc Hg Hpos.
  assert (¬ (area first == 0)%Q) as Hne.
  { intros Hz. rewrite Hz in Hpos. by apply Qlt_irrefl in Hpos. }
  assert (classes_of first rest bl cl gl
          = {| building_union := GeometryCollection;
               carpark_union := GeometryCollection;
               greenspace_union := GeometryCollection;
               opportunity_geom := first |}) as Hcls.
  { unfold classes_of, clipped.
    rewrite <- !union_overlay_intersection, Hb, Hc, Hg.
    change (unary_union []) with (∅ : Geometry).
    unfold GeometryCollection. f_equal; set_solver. }
  destruct (pct_zero (area first) Hne) as (p0 & Hp0 & Hz0).
  eexists _, p0, p0, p0, _. rewrite analyse_classes, Hcls.
  split; [reflexivity |].
  unfold area_calculations.
  cbn [building_union carpark_union greenspace_union opportunity_geom
       building_area carpark_area greenspace_area opportunity_area
       total_area building_pct carpark_pct greenspace_pct opportunity_pct].
  change (area_or_zero GeometryCollection) with 0%Q.
  rewrite area_or_zero_area, (pct_finite (area first) _ Hne).
  repeat (split; [done |]).
  field. exact Hne.
Qed.

(** ** Properties of the map layers *)

Section MapLayers.

Local Open Scope list_scope.

Variable to_crs_4326 : Geometry → Geometry.

Lemma elem_of_class_layer x col g c :
  FilledLayer g c ∈ class_layer x col
  ↔ c = col ∧ x = Some g ∧ is_empty g = false.
Proof.
  unfold class_layer. destruct x as [geom |]; simpl.
  - destruct (is_empty geom) eqn:He; simpl.
    + rewrite elem_of_nil. split; [done |]. intros (_ & [= ->] & Hg). congruence.
    + rewrite list_elem_of_singleton. split.
      * by intros [= -> ->].
      * by intros (-> & [= ->] & _).
  - rewrite elem_of_nil. split; [done |]. by intros (_ & ? & _).
Qed.

Lemma length_class_layer x col : (length (class_layer x col) ≤ 1)%nat.
Proof.
  unfold class_layer. destruct x as [geom |]; simpl; [| lia].
  destruct (is_empty geom); simpl; lia.
Qed.

Lemma to_wgs84_Some geom g :
  to_wgs84 to_crs_4326 geom = Some g
  ↔ is_empty geom = false ∧ g = to_crs_4326 geom.
Proof.
  unfold to_wgs84. destruct (is_empty geom).
  - split; [done | by intros [? _]].
  - split; [by intros [= <-] | by intros [_ ->]].
Qed.

End MapLayers.

(** X14.  The boundary outline is always drawn, as the last layer, so
    the map has between one and five layers.  A class is drawn, in its
    own colour, exactly when its geometry and the reprojected geometry
    are not empty, and the layer then holds the reprojected geometry. *)
Theorem map_layers_drawn (to_crs_4326 : Geometry → Geometry)
    (oa_boundary : list Geometry) (u : ClassUnions) :
  let layers := run_layers to_crs_4326 oa_boundary u in
  last layers
  = Some (OutlineLayer (to_crs_4326 <$> oa_boundary) [255; 215; 0]%Z 3)
  ∧ (1 ≤ length layers ≤ 5)%nat
  ∧ length (filter (λ l, is_filled l = false) layers) = 1%nat
  ∧ ∀ g,
      (FilledLayer g [200; 0; 0; 180]%Z ∈ layers
       ↔ is_empty (building_union u) = false
         ∧ g = to_crs_4326 (building_union u) ∧ is_empty g = false)
      ∧ (FilledLayer g [150; 0; 200; 180]%Z ∈ layers
         ↔ is_empty (carpark_union u) = false
           ∧ g = to_crs_4326 (carpark_union u) ∧ is_empty g = false)
      ∧ (FilledLayer g [0; 180; 0; 180]%Z ∈ layers
         ↔ is_empty (greenspace_union u) = false
           ∧ g = to_crs_4326 (greenspace_union u) ∧ is_empty g = false)
      ∧ (FilledLayer g [0; 100; 255; 160]%Z ∈ layers
         ↔ is_empty (opportunity_geom u) = false
           ∧ g = to_crs_4326 (opportunity_geom u) ∧ is_empty g = false).
Proof.
  intros layers. subst layers. unfold run_layers, map_layers.
  set (d := prepare_map_display to_crs_4326 u).
  set (outline := OutlineLayer (to_crs_4326 <$> oa_boundary) _ _).
  split; [| split; [| split]].
  - rewrite !app_assoc. apply last_snoc.
  - rewrite !length_app. change (length [outline]) with 1%nat.
    pose proof (length_class_layer (building_display d) [200; 0; 0; 180]%Z).
    pose proof (length_class_layer (carpark_display d) [150; 0; 200; 180]%Z).
    pose proof (length_class_layer (greenspace_display d) [0; 180; 0; 180]%Z).
    pose proof (length_class_layer (opportunity_display d) [0; 100; 255; 160]%Z).
    lia.
  - assert (∀ x col,
              filter (λ l, is_filled l = false) (class_layer x col) = [])
      as Hnone.
    { intros x col. unfold class_layer. destruct x as [geom |]; [| done].
      simpl. by destruct (is_empty geom). }
    by rewrite !filter_app, !Hnone.
  - intros g. rewrite !elem_of_app, !elem_of_class_layer.
    rewrite !list_elem_of_singleton. subst d outline.
    unfold prepare_map_display. simpl. rewrite !to_wgs84_Some.
    repeat split; intros; destruct_or?; destruct_and?;
      simplify_eq; auto 10.
Qed.

(** ** Instances of the further conditional properties *)

Lemma first_match_decides_witness :
  (∀ r', r' ∈ [ {| pcds := "E15AA"; oa21 := "E00000001" |} ] →
         pcds r' ≠ "E16AN")
  ∧ pcds {| pcds := "E16AN"; oa21 := "E00000002" |} = "E16AN"
  ∧ main "E16AN"
      ([ {| pcds := "E15AA"; oa21 := "E00000001" |} ]
       ++ {| pcds := "E16AN"; oa21 := "E00000002" |}
          :: [ {| pcds := "E16AN"; oa21 := "E00000003" |} ])%list
      [ {| OA21CD := "E00000001"; oa_geometry := box 0 0 2 2 |};
        {| OA21CD := "E00000002"; oa_geometry := box 2 0 2 2 |};
        {| OA21CD := "E00000003"; oa_geometry := box 4 0 2 2 |} ]
      [box 1 0 4 1] [] []
    = analyse
        (oa_geometry
         <$> filter
               (λ o, OA21CD o
                     = oa21 {| pcds := "E16AN"; oa21 := "E00000002" |})
               [ {| OA21CD := "E00000001"; oa_geometry := box 0 0 2 2 |};
                 {| OA21CD := "E00000002"; oa_geometry := box 2 0 2 2 |};
                 {| OA21CD := "E00000003"; oa_geometry := box 4 0 2 2 |} ])
        [box 1 0 4 1] [] []
  ∧ (main "E16AN"
       ([ {| pcds := "E15AA"; oa21 := "E00000001" |} ]
        ++ {| pcds := "E16AN"; oa21 := "E00000002" |}
           :: [ {| pcds := "E16AN"; oa21 := "E00000003" |} ])%list
       [ {| OA21CD := "E00000001"; oa_geometry := box 0 0 2 2 |};
         {| OA21CD := "E00000002"; oa_geometry := box 2 0 2 2 |};
         {| OA21CD := "E00000003"; oa_geometry := box 4 0 2 2 |} ]
       [box 1 0 4 1] [] []
     = Stopped "Output Area geometry not found."
     ↔ ∀ o,
         o ∈ [ {| OA21CD := "E00000001"; oa_geometry := box 0 0 2 2 |};
               {| OA21CD := "E00000002"; oa_geometry := box 2 0 2 2 |};
               {| OA21CD := "E00000003"; oa_geometry := box 4 0 2 2 |} ] →
         OA21CD o ≠ oa21 {| pcds := "E16AN"; oa21 := "E00000002" |})
  ∧ ((∃ u rep,
        main "E16AN"
          ([ {| pcds := "E15AA"; oa21 := "E00000001" |} ]
           ++ {| pcds := "E16AN"; oa21 := "E00000002" |}
              :: [ {| pcds := "E16AN"; oa21 := "E00000003" |} ])%list
          [ {| OA21CD := "E00000001"; oa_geometry := box 0 0 2 2 |};
            {| OA21CD := "E00000002"; oa_geometry := box 2 0 2 2 |};
            {| OA21CD := "E00000003"; oa_geometry := box 4 0 2 2 |} ]
          [box 1 0 4 1] [] []
        = Reported u rep)
     ↔ ∃ o,
         o ∈ [ {| OA21CD := "E00000001"; oa_geometry := box 0 0 2 2 |};
               {| OA21CD := "E00000002"; oa_geometry := box 2 0 2 2 |};
               {| OA21CD := "E00000003"; oa_geometry := box 4 0 2 2 |} ]
         ∧ OA21CD o = oa21 {| pcds := "E16AN"; oa21 := "E00000002" |}).
Proof.
  assert (∀ r', r' ∈ [ {| pcds := "E15AA"; oa21 := "E00000001" |} ] →
                pcds r' ≠ "E16AN") as Hl1.
  { intros r' Hin. apply list_elem_of_singleton in Hin. by subst r'. }
  split; [exact Hl1 |]. split; [reflexivity |].
  exact (first_match_decides "E16AN"
           [ {| pcds := "E15AA"; oa21 := "E00000001" |} ]
           [ {| pcds := "E16AN"; oa21 := "E00000003" |} ]
           {| pcds := "E16AN"; oa21 := "E00000002" |}
           [ {| OA21CD := "E00000001"; oa_geometry := box 0 0 2 2 |};
             {| OA21CD := "E00000002"; oa_geometry := box 2 0 2 2 |};
             {| OA21CD := "E00000003"; oa_geometry := box 4 0 2 2 |} ]
           [box 1 0 4 1] [] [] Hl1 eq_refl).
Defined.

Lemma outside_boundary_ignored_witness :
  unary_union [box 0 0 2 2; box 10 10 3 3] ∩ unary_union [box 0 0 4 4]
  = unary_union [box 0 0 1 2; box 1 0 1 2] ∩ unary_union [box 0 0 4 4]
  ∧ unary_union [box 3 3 2 2] ∩ unary_union [box 0 0 4 4]
    = unary_union [box 3 3 1 1] ∩ unary_union [box 0 0 4 4]
  ∧ unary_union [] ∩ unary_union [box 0 0 4 4]
    = unary_union [box 7 7 1 1] ∩ unary_union [box 0 0 4 4]
  ∧ analyse [box 0 0 4 4]
      [box 0 0 2 2; box 10 10 3 3] [box 3 3 2 2] []
    = analyse [box 0 0 4 4]
        [box 0 0 1 2; box 1 0 1 2] [box 3 3 1 1] [box 7 7 1 1].
Proof.
  assert (unary_union [box 0 0 2 2; box 10 10 3 3]
            ∩ unary_union [box 0 0 4 4]
          = unary_union [box 0 0 1 2; box 1 0 1 2]
              ∩ unary_union [box 0 0 4 4]) as Hb
    by (vm_compute; reflexivity).
  assert (unary_union [box 3 3 2 2] ∩ unary_union [box 0 0 4 4]
          = unary_union [box 3 3 1 1] ∩ unary_union [box 0 0 4 4]) as Hc
    by (vm_compute; reflexivity).
  assert (unary_union [] ∩ unary_union [box 0 0 4 4]
          = unary_union [box 7 7 1 1] ∩ unary_union [box 0 0 4 4]) as Hg
    by (vm_compute; reflexivity).
  split; [exact Hb |]. split; [exact Hc |]. split; [exact Hg |].
  exact (outside_boundary_ignored [box 0 0 4 4] _ _ _ _ _ _ Hb Hc Hg).
Defined.

Lemma percentages_within_bounds_witness :
  (0 < area (box 0 0 10 10))%Q
  ∧ ∃ u r p1 p2 p3 p4,
      analyse [box 0 0 10 10] [box 0 0 6 5] [box 5 0 3 5] [box 4 3 4 5]
      = Reported u r
      ∧ (0 <= building_area r <= total_area r)%Q
      ∧ (0 <= carpark_area r <= total_area r)%Q
      ∧ (0 <= greenspace_area r <= total_area r)%Q
      ∧ (0 <= opportunity_area r <= total_area r)%Q
      ∧ building_pct r = Finite p1 ∧ (0 <= p1 <= 100)%Q
      ∧ carpark_pct r = Finite p2 ∧ (0 <= p2 <= 100)%Q
      ∧ greenspace_pct r = Finite p3 ∧ (0 <= p3 <= 100)%Q
      ∧ opportunity_pct r = Finite p4 ∧ (0 <= p4 <= 100)%Q.
Proof.
  split; [vm_compute; reflexivity |].
  apply (percentages_within_bounds (box 0 0 10 10)).
  vm_compute. reflexivity.
Defined.

Lemma nothing_mapped_all_opportunity_witness :
  overlay_intersection [box 5 5 2 2] [box 0 0 4 4; box 0 4 4 1] = []
  ∧ overlay_intersection [] [box 0 0 4 4; box 0 4 4 1] = []
  ∧ overlay_intersection [box 4 0 1 1; box 9 9 1 1]
      [box 0 0 4 4; box 0 4 4 1] = []
  ∧ (0 < area (box 0 0 4 4))%Q
  ∧ ∃ r p1 p2 p3 p4,
      analyse [box 0 0 4 4; box 0 4 4 1]
        [box 5 5 2 2] [] [box 4 0 1 1; box 9 9 1 1]
      = Reported
          {| building_union := GeometryCollection;
             carpark_union := GeometryCollection;
             greenspace_union := GeometryCollection;
             opportunity_geom := box 0 0 4 4 |} r
      ∧ building_area r = 0%Q ∧ carpark_area r = 0%Q
      ∧ greenspace_area r = 0%Q ∧ opportunity_area r = total_area r
      ∧ building_pct r = Finite p1 ∧ (p1 == 0)%Q
      ∧ carpark_pct r = Finite p2 ∧ (p2 == 0)%Q
      ∧ greenspace_pct r = Finite p3 ∧ (p3 == 0)%Q
      ∧ opportunity_pct r = Finite p4 ∧ (p4 == 100)%Q.
Proof.
  split; [vm_compute; reflexivity |]. split; [vm_compute; reflexivity |].
  split; [vm_compute; reflexivity |]. split; [vm_compute; reflexivity |].
  apply (nothing_mapped_all_opportunity (box 0 0 4 4) [box 0 4 4 1]);
    vm_compute; reflexivity.
Defined.

(** ** Concrete postcodes *)

Example normalise_examples :
  normalise " e1 6an " = "E16AN"
  ∧ normalise "E16AN" = "E16AN"
  ∧ normalise "sw1a 1aa" = "SW1A1AA"
  ∧ normalise "   " = ""
  ∧ app "   " [] [] [] [] [] = None
  ∧ app "e1 6an"
      [ {| csv_pcds := None; csv_oa21 := "E00000001" |};
        {| csv_pcds := Some "E1 6AN"; csv_oa21 := "E00000002" |} ]
      [ {| OA21CD := "E00000002"; oa_geometry := box 2 0 2 2 |} ]
      [box 1 0 2 1] [] []
    = Some (analyse [box 2 0 2 2] [box 1 0 2 1] [] []).
Proof. repeat split; vm_compute; reflexivity. Qed.

(** ** Double precision: the error of a rounding *)

Section DoubleRounding.

Local Open Scope Q_scope.













End DoubleRounding.



(** Three classes of one cell each in a boundary of three cells: every
    percentage is the binary64 number 33.33333333333333 and the sum falls
    short of 100 by 2^-46. *)
Example pct_double_thirds :
  (∃ d, pct_double 1 3 = Finite d
        ∧ (d == 2345624805922133 # 70368744177664)%Q
        ∧ (d + d + d + 0 - 100 == - (1 # 70368744177664))%Q)
  ∧ pct_double 0 3 = Finite 0
  ∧ (∃ d, pct_double 3 3 = Finite d ∧ (d == 100)%Q)
  ∧ (∃ d, pct_double 30 100 = Finite d ∧ (d == 30)%Q)
  ∧ pct_double 0 0 = NaN
  ∧ pct_double 2 0 = PosInf.
Proof.
  split; [| split; [| split; [| split; [| split]]]].
  - eexists.
    split; [vm_compute; reflexivity |].
    split; vm_compute; reflexivity.
  - vm_compute. reflexivity.
  - eexists. split; vm_compute; reflexivity.
  - eexists. split; vm_compute; reflexivity.
  - vm_compute. reflexivity.
  - vm_compute. reflexivity.
Qed.


Lemma blank_input_skipped_witness :
  ascii_text " e1 6an "
  ∧ (normalise " e1 6an " = "" ↔ blank " e1 6an ")
  ∧ (app " e1 6an "
       [ {| csv_pcds := Some "E1 6AN"; csv_oa21 := "E00000002" |} ]
       [ {| OA21CD := "E00000002"; oa_geometry := box 2 0 2 2 |} ]
       [box 1 0 2 1] [] [] = None
     ↔ blank " e1 6an ")
  ∧ (¬ blank " e1 6an " →
     app " e1 6an "
       [ {| csv_pcds := Some "E1 6AN"; csv_oa21 := "E00000002" |} ]
       [ {| OA21CD := "E00000002"; oa_geometry := box 2 0 2 2 |} ]
       [box 1 0 2 1] [] []
     = Some (main (normalise " e1 6an ")
               (load_postcode_lookup
                  [ {| csv_pcds := Some "E1 6AN";
                       csv_oa21 := "E00000002" |} ])
               [ {| OA21CD := "E00000002"; oa_geometry := box 2 0 2 2 |} ]
               [box 1 0 2 1] [] [])).
Proof.
  assert (ascii_text " e1 6an ") as Hascii
    by (unfold ascii_text; simpl; repeat constructor).
  split; [exact Hascii |].
  exact (blank_input_skipped " e1 6an "
           [ {| csv_pcds := Some "E1 6AN"; csv_oa21 := "E00000002" |} ]
           [ {| OA21CD := "E00000002"; oa_geometry := box 2 0 2 2 |} ]
           [box 1 0 2 1] [] [] Hascii).
Defined.

Lemma postcode_not_found_iff_witness :
  ascii_text "n1 9gu"
  ∧ (∀ r p,
       r ∈ [ {| csv_pcds := None; csv_oa21 := "E00000001" |};
             {| csv_pcds := Some "E1 6AN"; csv_oa21 := "E00000002" |} ] →
       csv_pcds r = Some p → ascii_text p)
  ∧ (app "n1 9gu"
       [ {| csv_pcds := None; csv_oa21 := "E00000001" |};
         {| csv_pcds := Some "E1 6AN"; csv_oa21 := "E00000002" |} ]
       [ {| OA21CD := "E00000002"; oa_geometry := box 2 0 2 2 |} ]
       [box 1 0 2 1] [] []
     = Some (Stopped "Postcode not found.")
     ↔ ¬ blank "n1 9gu"
       ∧ ∀ r p,
           r ∈ [ {| csv_pcds := None; csv_oa21 := "E00000001" |};
                 {| csv_pcds := Some "E1 6AN";
                    csv_oa21 := "E00000002" |} ] →
           csv_pcds r = Some p → normalise p ≠ normalise "n1 9gu").
Proof.
  assert (ascii_text "n1 9gu") as Hascii
    by (unfold ascii_text; simpl; repeat constructor).
  assert (∀ r p,
            r ∈ [ {| csv_pcds := None; csv_oa21 := "E00000001" |};
                  {| csv_pcds := Some "E1 6AN";
                     csv_oa21 := "E00000002" |} ] →
            csv_pcds r = Some p → ascii_text p) as Hcells.
  { intros r p Hr Hp.
    apply elem_of_cons in Hr as [-> | Hr]; [discriminate Hp |].
    apply list_elem_of_singleton in Hr as ->. injection Hp as <-.
    unfold ascii_text. simpl. repeat constructor. }
  split; [exact Hascii |]. split; [exact Hcells |].
  exact (postcode_not_found_iff "n1 9gu"
           [ {| csv_pcds := None; csv_oa21 := "E00000001" |};
             {| csv_pcds := Some "E1 6AN"; csv_oa21 := "E00000002" |} ]
           [ {| OA21CD := "E00000002"; oa_geometry := box 2 0 2 2 |} ]
           [box 1 0 2 1] [] [] Hascii Hcells).
Defined.
